(** * HanoiTowers: an iterative, greedy solver for the Towers of Hanoi
    Shallow embedding of [HanoiTowers.cpp] and the properties of its solver.
    - A [Tower] is the [std::list<int>] of the source: a list of integers
      whose head is [front()], the disk on top.  A [HanoiTower] is the
      [std::array<Tower, 3>].
    - [Move], [Odd], [Even], the [Hanoi] template, [Hanoi], [InitTower],
      [DisksCount] and [main] follow the functions of the same names.
      [Dump] prints only in debug builds and is left out.
    - [previous] and [moves] are the two [int] locals of the [Hanoi]
      template, passed by reference to [Odd] and [Even].  Disk sizes are
      [int]s too; they are never computed with, only compared and tested
      for their low bit, so they are kept as integers without a bound. *)

From Equations Require Import Equations.
From Stdlib Require Import String Ascii.
From Stdlib Require Import List ZArith Arith Bool Lia.
From Stdlib Require Import Permutation Sorted.
From Stdlib Require DecimalString.
Import ListNotations.

Local Open Scope Z_scope.

(* ================================================================== *)
(** * The [int] type                                                   *)
(* ================================================================== *)

(** [int] is taken to be 32 bits wide, as on the usual targets. *)
Module Int.

Definition min_int : Z := - 2 ^ 31.
Definition max_int : Z := 2 ^ 31 - 1.

(** Two's complement reduction of a mathematical integer to 32 bits.
    The C++ standard leaves signed overflow undefined; this is what the
    usual targets compute, and whatever a target does, the result is an
    [int], between [min_int] and [max_int]. *)
Definition wrap (x : Z) : Z := (x + 2 ^ 31) mod 2 ^ 32 - 2 ^ 31.

(** [i++] on an [int]. *)
Definition incr (x : Z) : Z := wrap (x + 1).

(** [std::abs] on an [int]: the absolute value.  [min_int] has none among
    the [int]s and the call is undefined there: [None]. *)
Definition abs (x : Z) : option Z :=
  if x =? min_int then None else Some (Z.abs x).

(** The truth value of [x & 1]. *)
Definition low_bit (x : Z) : bool := negb (Z.land x 1 =? 0).

End Int.

(* ================================================================== *)
(** * Pegs and the board                                               *)
(* ================================================================== *)

Definition Tower := list Z.

Record HanoiTower := mkHanoiTower {
  peg0 : Tower;
  peg1 : Tower;
  peg2 : Tower
}.

(** [tower[i]] for the literal indices 0, 1 and 2 that the source uses. *)
Definition peg (t : HanoiTower) (i : Z) : Tower :=
  if i =? 0 then peg0 t else if i =? 1 then peg1 t else peg2 t.

Definition set_peg (t : HanoiTower) (i : Z) (x : Tower) : HanoiTower :=
  if i =? 0 then mkHanoiTower x (peg1 t) (peg2 t)
  else if i =? 1 then mkHanoiTower (peg0 t) x (peg2 t)
  else mkHanoiTower (peg0 t) (peg1 t) x.

(** [InitTower]: the loop [for (i = 1; i <= disks_count; i++) push_back(i)],
    unrolled over the number of iterations that remain. *)
Fixpoint InitTower_from (i : Z) (remaining : nat) : Tower :=
  match remaining with
  | O => []
  | S r => i :: InitTower_from (i + 1) r
  end.

Definition InitTower (disks_count : Z) : Tower :=
  InitTower_from 1 (Z.to_nat disks_count).

(* ================================================================== *)
(** * The move primitive                                               *)
(* ================================================================== *)

(** [Move(from, to)].  The result is the returned flag together with the
    two towers after the call. *)
Definition Move (from to : Tower) : bool * (Tower * Tower) :=
  match from with
  | [] => (false, (from, to))
  | f :: from' =>
      let clash :=
        match to with
        | [] => false
        | t :: _ =>
            (* Odd cannot go on another odd. *)
            (Int.low_bit f && Int.low_bit t)
            (* Even cannot go on another even. *)
            || (negb (Int.low_bit f) && negb (Int.low_bit t))
        end in
      if clash then (false, (from, to))
      else
        match to with
        | [] => (true, (from', f :: to))
        | t :: _ =>
            if f <? t then (true, (from', f :: to)) else (false, (from, to))
        end
  end.

(* ================================================================== *)
(** * Driver state                                                     *)
(* ================================================================== *)

(** One successful move, as the driver leaves it: the two literal indices
    of the call, and the board and [previous] after the body of the [if]. *)
Record Step := mkStep {
  step_from : Z;
  step_to : Z;
  step_tower : HanoiTower;
  step_previous : Z
}.

(** The variables of the [Hanoi] template.  [history] is a ghost log of
    the successful moves, oldest first; the code does not read it. *)
Record State := mkState {
  tower : HanoiTower;
  previous : Z;
  moves : Z;
  history : list Step
}.

(** One guarded candidate of the source,
    [if (previous != G && Move(tower[F], tower[T])) { moves++; previous = P; continue; }],
    with its four literals. *)
Record Candidate := mkCandidate {
  c_guard : Z;
  c_from : Z;
  c_to : Z;
  c_prev : Z
}.

Inductive Outcome :=
| Skipped            (* the guard is false: [Move] is not called *)
| Rejected           (* [Move] is called and returns false *)
| Moved (st : State) (* [Move] returns true and the body runs *).

Definition attempt (c : Candidate) (st : State) : Outcome :=
  if previous st =? c_guard c then Skipped
  else
    let '(ok, (from', to')) :=
      Move (peg (tower st) (c_from c)) (peg (tower st) (c_to c)) in
    if ok then
      let tw := set_peg (set_peg (tower st) (c_from c) from') (c_to c) to' in
      Moved {| tower := tw;
               previous := c_prev c;
               moves := Int.incr (moves st);
               history := history st ++ [mkStep (c_from c) (c_to c) tw (c_prev c)] |}
    else Rejected.

(** A cascade of guarded candidates: the first one that moves wins. *)
Fixpoint first_success (cs : list Candidate) (st : State) : option State :=
  match cs with
  | [] => None
  | c :: cs' =>
      match attempt c st with
      | Moved st' => Some st'
      | _ => first_success cs' st
      end
  end.

Definition Even_candidates : list Candidate :=
  [ mkCandidate 0 0 1 1; mkCandidate 0 0 2 2; mkCandidate 1 1 2 2 ].

Definition Odd_candidates : list Candidate :=
  [ mkCandidate 0 0 2 2; mkCandidate 0 0 1 1; mkCandidate 1 1 2 2 ].

Definition Hanoi_candidates : list Candidate :=
  [ mkCandidate 2 2 0 0; mkCandidate 2 2 1 1; mkCandidate 1 1 0 0 ].

(** Every successful move of [Odd] and [Even] lowers this rank. *)
Definition rank (st : State) : nat :=
  (2 * length (peg0 (tower st)) + length (peg1 (tower st)))%nat.

(* ================================================================== *)
(** * Termination of the two inner loops                               *)
(* ================================================================== *)

(** What [Move] does to the two towers, whatever it returns. *)
Lemma Move_shape (from to : Tower) :
  Move from to = (false, (from, to)) \/
  exists f from', from = f :: from' /\ Move from to = (true, (from', f :: to)).
Proof.
  unfold Move. destruct from as [|f from']; [now left|].
  destruct to as [|t to'].
  - right. now exists f, from'.
  - destruct (_ || _); [now left|].
    destruct (f <? t); [right; now exists f, from' | now left].
Qed.

Lemma forward_rank (c : Candidate) (st st' : State) :
  In c (Odd_candidates ++ Even_candidates) ->
  attempt c st = Moved st' -> (rank st' < rank st)%nat.
Proof.
  intros Hin. unfold attempt.
  destruct (previous st =? c_guard c); [discriminate|].
  destruct (Move_shape (peg (tower st) (c_from c)) (peg (tower st) (c_to c)))
    as [E | (f & from' & Hf & E)]; rewrite E; [discriminate|].
  intros H; injection H as <-. revert Hf.
  destruct st as [[p0 p1 p2] pv mv hs]. unfold rank.
  simpl in Hin.
  repeat destruct Hin as [<- | Hin]; try contradiction;
    cbn; intros ->; cbn; lia.
Qed.

Lemma first_success_rank (cs : list Candidate) (st st' : State) :
  incl cs (Odd_candidates ++ Even_candidates) ->
  first_success cs st = Some st' -> (rank st' < rank st)%nat.
Proof.
  induction cs as [|c cs IH]; intros Hincl; [discriminate|].
  cbn. destruct (attempt c st) eqn:E.
  - apply IH. intros x Hx. apply Hincl. now right.
  - apply IH. intros x Hx. apply Hincl. now right.
  - intros H; injection H as <-.
    eapply forward_rank; [|exact E]. apply Hincl. now left.
Qed.

(** A value together with the equation that names it, for the
    termination proofs of the two loops. *)
Definition inspect {A : Type} (a : A) : {b : A | a = b} := exist _ a eq_refl.

(** [Even]: the [while (1)] loop leaves through [break] when no candidate
    of the cascade moves. *)
Equations? Even (st : State) : State by wf (rank st) lt :=
  Even st with inspect (first_success Even_candidates st) := {
    | exist _ (Some st') _ => Even st';
    | exist _ None _ => st }.
Proof.
  apply (first_success_rank Even_candidates); [|exact e].
  intros x Hx. apply in_or_app. now right.
Qed.

(** [Odd]: the same loop over its own cascade. *)
Equations? Odd (st : State) : State by wf (rank st) lt :=
  Odd st with inspect (first_success Odd_candidates st) := {
    | exist _ (Some st') _ => Odd st';
    | exist _ None _ => st }.
Proof.
  apply (first_success_rank Odd_candidates); [|exact e].
  intros x Hx. apply in_or_app. now left.
Qed.

(* ================================================================== *)
(** * The [Hanoi] template and its instances                           *)
(* ================================================================== *)

(** [int moves = 0; int previous = 2;] over the board that is passed in. *)
Definition init_state (t : HanoiTower) : State :=
  {| tower := t; previous := 2; moves := 0; history := [] |}.

(** One pass through the body of the outer loop: the call of [move] (the
    template argument, [Odd] or [Even]) and the cascade after it.  Every
    path through the body, a [continue] or the end of the block, leads back
    to the condition of the loop. *)
Definition Hanoi_body (move : State -> State) (st : State) : State :=
  let st1 := move st in
  match first_success Hanoi_candidates st1 with
  | Some st2 => st2
  | None => st1
  end.

(** The outer [while (tower[2].size() != disks_count)] loop.  It need not
    end on an arbitrary board, so [fuel] bounds the number of times its
    condition is evaluated; [None] means the bound was reached. *)
Fixpoint Hanoi_loop (move : State -> State) (disks_count : nat)
    (fuel : nat) (st : State) : option State :=
  match fuel with
  | O => None
  | S fuel' =>
      if (length (peg2 (tower st)) =? disks_count)%nat then Some st
      else Hanoi_loop move disks_count fuel' (Hanoi_body move st)
  end.

(** Decimal output of [operator<<] for integers. *)
Definition show_Z (z : Z) : String.string :=
  DecimalString.NilZero.string_of_int (Z.to_int z).

(** The line that the [Hanoi] template prints. *)
Definition report (disks_count : nat) (st : State) : string :=
  String.append (show_Z (Z.of_nat disks_count))
    (String.append " disks done in "%string
       (String.append (show_Z (moves st)) " moves"%string)).

(** [Hanoi(tower, move)]: the final state and the line written to
    [std::cout]. *)
Definition Hanoi_with (move : State -> State) (t : HanoiTower) (fuel : nat)
  : option (State * String.string) :=
  let disks_count := length (peg0 t) in
  match Hanoi_loop move disks_count fuel (init_state t) with
  | Some st => Some (st, report disks_count st)
  | None => None
  end.

(** [Hanoi(tower)]: [tower[0].size() & 1] selects the instance. *)
Definition Hanoi (t : HanoiTower) (fuel : nat) : option (State * String.string) :=
  if Nat.odd (length (peg0 t)) then Hanoi_with Odd t fuel
  else Hanoi_with Even t fuel.

(** The board that [main] builds: [{ InitTower(disks_count), {}, {} }]. *)
Definition start_tower (disks_count : Z) : HanoiTower :=
  mkHanoiTower (InitTower disks_count) [] [].

(* ================================================================== *)
(** * The command line                                                 *)
(* ================================================================== *)

Definition is_space (c : Ascii.ascii) : bool :=
  let n := Ascii.nat_of_ascii c in
  ((n =? 32) || ((9 <=? n) && (n <=? 13)))%nat.

Fixpoint skip_spaces (s : String.string) : String.string :=
  match s with
  | String.String c r => if is_space c then skip_spaces r else s
  | String.EmptyString => s
  end.

Definition digit_of (c : Ascii.ascii) : option Z :=
  let n := Ascii.nat_of_ascii c in
  if ((48 <=? n) && (n <=? 57))%nat then Some (Z.of_nat (n - 48)) else None.

(** The longest prefix of decimal digits, as a number; [None] when the
    prefix is empty. *)
Fixpoint read_digits (s : String.string) (acc : option Z) : option Z :=
  match s with
  | String.String c r =>
      match digit_of c with
      | Some d =>
          read_digits r (Some (10 * match acc with Some a => a | None => 0 end + d))
      | None => acc
      end
  | String.EmptyString => acc
  end.

(** [std::stoi] of the C++ standard library in base 10: leading white
    space, an optional sign, then digits; [None] stands for the exception
    it throws ([invalid_argument] without digits, [out_of_range] when the
    value does not fit an [int]). *)
Definition stoi (s : String.string) : option Z :=
  let s1 := skip_spaces s in
  let '(negative, s2) :=
    match s1 with
    | String.String "-"%char r => (true, r)
    | String.String "+"%char r => (false, r)
    | _ => (false, s1)
    end in
  match read_digits s2 None with
  | None => None
  | Some v =>
      let v' := if negative then - v else v in
      if (Int.min_int <=? v') && (v' <=? Int.max_int) then Some v' else None
  end.

Definition nl : String.string := String.String (Ascii.ascii_of_nat 10) String.EmptyString.

Definition notice_default (disks_count : Z) : String.string :=
  String.concat String.EmptyString
    [nl; "Need provide a number of disks on program input!"%string; nl;
     "For now taking default "%string; show_Z disks_count; " disks"%string; nl; nl].

Definition notice_too_few (disks_count : Z) : String.string :=
  String.concat String.EmptyString
    [nl; "Disks count "%string; show_Z disks_count;
     " does not sound correct. You need at least one disk."%string; nl;
     " Will keep default 3 disks."%string; nl; nl].

Definition notice_large : String.string :=
  String.concat String.EmptyString
    [nl; "Large number of disks may take long to move. Working on it, be patient...."%string;
     nl; nl].

(** How a call ends: it returns a value, it throws, or its behaviour is
    undefined, in which case nothing is known of what the program does. *)
Inductive Call (A : Type) : Type :=
| Returns (a : A)
| Throws
| Undefined.

Arguments Returns {A} a.
Arguments Throws {A}.
Arguments Undefined {A}.

(** [DisksCount(argc, argv)]: [argv] is the whole argument vector, program
    name first, and [argc] its length.  The value returned is the count
    with what was written to [std::cout].  The call throws when
    [std::stoi] does, and is undefined when [std::abs] is. *)
Definition DisksCount (argv : list String.string)
  : Call (Z * list String.string) :=
  let disks_count := 3 in
  if Z.of_nat (length argv) <? 2 then
    Returns (disks_count, [notice_default disks_count])
  else
    match stoi (nth 1 argv String.EmptyString) with
    | None => Throws
    | Some parsed =>
        match Int.abs parsed with
        | None => Undefined
        | Some disks_count =>
            let '(disks_count, out) :=
              if disks_count <? 1 then (3, [notice_too_few disks_count])
              else (disks_count, []) in
            let out :=
              if disks_count >? 25 then out ++ [notice_large] else out in
            Returns (disks_count, out)
        end
    end.

(** [main] without the clock: the count, the notices and the result of
    [Hanoi] on the fresh board ([None] when the bound [fuel] is reached). *)
Definition main (argv : list String.string) (fuel : nat)
  : Call (Z * list String.string * option (State * String.string)) :=
  match DisksCount argv with
  | Returns (disks_count, out) =>
      Returns (disks_count, out, Hanoi (start_tower disks_count) fuel)
  | Throws => Throws
  | Undefined => Undefined
  end.

(* ================================================================== *)
(** * The driver as a sequence of successful moves                     *)
(* ================================================================== *)

(** [true] selects [Odd], [false] selects [Even]. *)
Definition sweep (odd : bool) : State -> State := if odd then Odd else Even.

Definition sweep_candidates (odd : bool) : list Candidate :=
  if odd then Odd_candidates else Even_candidates.

(** The next successful move of the driver: the first candidate that moves,
    the cascade of the inner loop before the cascade of the outer one. *)
Definition next (odd : bool) (st : State) : option State :=
  first_success (sweep_candidates odd ++ Hanoi_candidates) st.

(** [k] successful moves in a row. *)
Fixpoint run (odd : bool) (k : nat) (st : State) : option State :=
  match k with
  | O => Some st
  | S k' =>
      match next odd st with
      | Some st' => run odd k' st'
      | None => None
      end
  end.

(* ================================================================== *)
(** * Vocabulary of the properties                                     *)
(* ================================================================== *)

(** Whether [Move] returns true. *)
Definition legal (from to : Tower) : bool := fst (Move from to).

(** The state that a candidate leaves when it moves. *)
Definition do_move (c : Candidate) (st : State) : State :=
  let from := peg (tower st) (c_from c) in
  let to := peg (tower st) (c_to c) in
  let tw := set_peg (set_peg (tower st) (c_from c) (tl from)) (c_to c)
              (hd 0 from :: to) in
  {| tower := tw;
     previous := c_prev c;
     moves := Int.incr (moves st);
     history := history st ++ [mkStep (c_from c) (c_to c) tw (c_prev c)] |}.

Definition all_candidates : list Candidate :=
  Odd_candidates ++ Even_candidates ++ Hanoi_candidates.

(** The number of disks on the board. *)
Definition disks (t : HanoiTower) : nat :=
  (length (peg0 t) + length (peg1 t) + length (peg2 t))%nat.

(** The moves of the textbook solution for [n] disks. *)
Definition hanoi_moves (n : nat) : nat := (2 ^ n - 1)%nat.

(** A peg read from the front (top) to the back (bottom). *)
Definition increasing (t : Tower) : Prop := Sorted Z.lt t.

Definition well_stacked (t : HanoiTower) : Prop :=
  increasing (peg0 t) /\ increasing (peg1 t) /\ increasing (peg2 t).

(** The sizes [1 .. n]. *)
Definition sizes (n : nat) : list Z := map Z.of_nat (seq 1 n).

(** The disks of the three pegs together are those of sizes [1 .. n],
    each one once. *)
Definition holds_disks (n : nat) (t : HanoiTower) : Prop :=
  Permutation (peg0 t ++ peg1 t ++ peg2 t) (sizes n).

(** The moves of a history, as pairs of peg indices. *)
Definition move_list (st : State) : list (Z * Z) :=
  map (fun s => (step_from s, step_to s)) (history st).

(** The words of the specification for the success of a move. *)
Definition spec_move_allowed (src_peg dst_peg : Tower) : Prop :=
  src_peg <> [] /\
  (dst_peg <> [] -> hd 0 src_peg < hd 0 dst_peg) /\
  (dst_peg <> [] -> Z.odd (hd 0 src_peg) <> Z.odd (hd 0 dst_peg)).

(** Neighbouring disks of a peg differ in parity. *)
Definition alternating (t : Tower) : Prop :=
  Sorted (fun x y => Z.odd x <> Z.odd y) t.

Definition parity_stacked (t : HanoiTower) : Prop :=
  alternating (peg0 t) /\ alternating (peg1 t) /\ alternating (peg2 t).

(** All the disks of a board, peg after peg. *)
Definition all_disks (t : HanoiTower) : list Z :=
  peg0 t ++ peg1 t ++ peg2 t.

(** What a call of [Odd] or [Even] may do between [st] and [st']: take
    disks off the front of peg 0, put disks on the front of peg 2, and log
    moves, no more of them than the rank lost. *)
Definition forward_only (st st' : State) : Prop :=
  (exists l, peg0 (tower st) = l ++ peg0 (tower st')) /\
  (exists l, peg2 (tower st') = l ++ peg2 (tower st)) /\
  (exists new, history st' = history st ++ new /\
               (length new + rank st' <= rank st)%nat).

(** No move takes a disk from the peg that the move before it put one on. *)
Definition never_undoes (h : list Step) : Prop :=
  forall h1 a b h2, h = h1 ++ a :: b :: h2 -> step_from b <> step_to a.

(** What the history of a run from a fresh state satisfies. *)
Definition history_inv (st : State) : Prop :=
  never_undoes (history st) /\
  (history st = [] -> previous st = 2) /\
  (forall a, hd_error (history st) = Some a -> step_from a <> 2) /\
  (forall h a, history st = h ++ [a] ->
               step_to a = previous st /\ step_tower a = tower st).

(** A board that [InitTower] does not build: disks 1 and 4 on peg 0. *)
Definition odd_board : HanoiTower := mkHanoiTower [1; 4] [] [].

(* ================================================================== *)
(** * Routes: which peg plays which part                               *)
(* ================================================================== *)

(** A route names the source, the spare and the target peg of a transfer
    of a stack of disks. *)
Inductive Route := R012 | R021 | R102 | R120 | R201 | R210.

Definition src (r : Route) : Z :=
  match r with R012 | R021 => 0 | R102 | R120 => 1 | R201 | R210 => 2 end.

Definition via (r : Route) : Z :=
  match r with R102 | R201 => 0 | R012 | R210 => 1 | R021 | R120 => 2 end.

Definition dst (r : Route) : Z :=
  match r with R120 | R210 => 0 | R021 | R201 => 1 | R012 | R102 => 2 end.

(** The board with [a] on the source, [b] on the spare, [c] on the target. *)
Definition board (r : Route) (a b c : Tower) : HanoiTower :=
  match r with
  | R012 => mkHanoiTower a b c
  | R021 => mkHanoiTower a c b
  | R102 => mkHanoiTower b a c
  | R120 => mkHanoiTower c a b
  | R201 => mkHanoiTower b c a
  | R210 => mkHanoiTower c b a
  end.

(** Source to spare, through the target. *)
Definition first_leg (r : Route) : Route :=
  match r with
  | R012 => R021 | R021 => R012 | R102 => R120
  | R120 => R102 | R201 => R210 | R210 => R201
  end.

(** Spare to target, through the source. *)
Definition second_leg (r : Route) : Route :=
  match r with
  | R012 => R102 | R102 => R012 | R021 => R201
  | R201 => R021 | R120 => R210 | R210 => R120
  end.

(** Whether the target is the peg after the source in the cycle 0, 1, 2. *)
Definition clockwise (r : Route) : bool :=
  match r with R021 | R102 | R210 => true | _ => false end.

(** The parity that an empty peg stands for: the board behaves as if a
    base disk lay under each peg, of the parity of the disk count under
    peg 1 and of the other parity under pegs 0 and 2.  [true] is odd. *)
Definition base (odd : bool) (i : Z) : bool :=
  if i =? 1 then odd else negb odd.

Definition top_parity (odd : bool) (i : Z) (t : Tower) : bool :=
  match t with
  | [] => base odd i
  | y :: _ => Z.odd y
  end.

(** Every disk that can be seen on [t] is larger than [n]. *)
Definition above (n : Z) (t : Tower) : Prop :=
  match t with
  | [] => True
  | y :: _ => n < y
  end.

(** The disks [1 .. n], smallest first. *)
Definition up (n : nat) : Tower := InitTower_from 1 n.

(* ================================================================== *)
(** * Facts about [int]                                                *)
(* ================================================================== *)

Lemma low_bit_odd (x : Z) : Int.low_bit x = Z.odd x.
Proof.
  unfold Int.low_bit. change 1 with (Z.ones 1) at 1.
  rewrite Z.land_ones by lia. change (2 ^ 1) with 2.
  rewrite Zmod_odd. now destruct (Z.odd x).
Qed.

Lemma wrap_small (x : Z) : Int.min_int <= x <= Int.max_int -> Int.wrap x = x.
Proof.
  unfold Int.wrap, Int.min_int, Int.max_int. intros H.
  rewrite Z.mod_small; lia.
Qed.

Lemma wrap_range (x : Z) : Int.min_int <= Int.wrap x <= Int.max_int.
Proof.
  unfold Int.wrap, Int.min_int, Int.max_int.
  pose proof (Z.mod_pos_bound (x + 2 ^ 31) (2 ^ 32)). lia.
Qed.

Lemma wrap_add_l (x y : Z) : Int.wrap (Int.wrap x + y) = Int.wrap (x + y).
Proof.
  unfold Int.wrap.
  replace ((x + 2 ^ 31) mod 2 ^ 32 - 2 ^ 31 + y + 2 ^ 31)
    with ((x + 2 ^ 31) mod 2 ^ 32 + y) by lia.
  rewrite Zplus_mod_idemp_l. do 2 f_equal. lia.
Qed.

(* ================================================================== *)
(** * Facts about [Move]                                               *)
(* ================================================================== *)

Lemma Move_legal (from to : Tower) :
  Move from to =
  if legal from to then (true, (tl from, hd 0 from :: to))
  else (false, (from, to)).
Proof.
  unfold legal.
  destruct (Move_shape from to) as [E | (f & from' & -> & E)]; now rewrite E.
Qed.

Lemma legal_nil_l (to : Tower) : legal [] to = false.
Proof. reflexivity. Qed.

Lemma legal_nil_r (f : Z) (from : Tower) : legal (f :: from) [] = true.
Proof. reflexivity. Qed.

Lemma legal_cons (f t : Z) (from to : Tower) :
  legal (f :: from) (t :: to) = (f <? t) && xorb (Z.odd f) (Z.odd t).
Proof.
  unfold legal, Move. rewrite !low_bit_odd.
  destruct (Z.odd f), (Z.odd t), (f <? t); reflexivity.
Qed.

Lemma attempt_legal (c : Candidate) (st : State) :
  attempt c st =
  if previous st =? c_guard c then Skipped
  else if legal (peg (tower st) (c_from c)) (peg (tower st) (c_to c))
       then Moved (do_move c st) else Rejected.
Proof.
  unfold attempt, do_move. rewrite Move_legal.
  destruct (previous st =? c_guard c); [reflexivity|].
  now destruct (legal _ _).
Qed.

Lemma first_success_app (cs1 cs2 : list Candidate) (st : State) :
  first_success (cs1 ++ cs2) st =
  match first_success cs1 st with
  | Some st' => Some st'
  | None => first_success cs2 st
  end.
Proof.
  induction cs1 as [|c cs1 IH]; [reflexivity|].
  cbn. now destruct (attempt c st).
Qed.

(* ================================================================== *)
(** * The loops of the source against [next] and [run]                 *)
(* ================================================================== *)

Lemma Odd_moved (st st' : State) :
  first_success Odd_candidates st = Some st' -> Odd st = Odd st'.
Proof.
  intros H. funelim (Odd st); congruence.
Qed.

Lemma Odd_break (st : State) :
  first_success Odd_candidates st = None -> Odd st = st.
Proof.
  intros H. funelim (Odd st); congruence.
Qed.

Lemma Even_moved (st st' : State) :
  first_success Even_candidates st = Some st' -> Even st = Even st'.
Proof.
  intros H. funelim (Even st); congruence.
Qed.

Lemma Even_break (st : State) :
  first_success Even_candidates st = None -> Even st = st.
Proof.
  intros H. funelim (Even st); congruence.
Qed.

Lemma sweep_moved (odd : bool) (st st' : State) :
  first_success (sweep_candidates odd) st = Some st' ->
  sweep odd st = sweep odd st'.
Proof. destruct odd; [apply Odd_moved | apply Even_moved]. Qed.

Lemma sweep_break (odd : bool) (st : State) :
  first_success (sweep_candidates odd) st = None -> sweep odd st = st.
Proof. destruct odd; [apply Odd_break | apply Even_break]. Qed.

Lemma legal_inv (from to : Tower) :
  legal from to = true -> exists f from', from = f :: from'.
Proof.
  destruct from as [|f from']; [discriminate|]. intros _. now exists f, from'.
Qed.

Lemma attempt_Moved_inv (c : Candidate) (st st' : State) :
  attempt c st = Moved st' ->
  previous st <> c_guard c /\
  legal (peg (tower st) (c_from c)) (peg (tower st) (c_to c)) = true /\
  st' = do_move c st.
Proof.
  rewrite attempt_legal.
  destruct (Z.eqb_spec (previous st) (c_guard c)); [discriminate|].
  destruct (legal _ _); [|discriminate].
  intros H; injection H as <-. auto.
Qed.

Lemma first_success_inv (cs : list Candidate) (st st' : State) :
  first_success cs st = Some st' ->
  exists c, In c cs /\ attempt c st = Moved st'.
Proof.
  induction cs as [|c cs IH]; [discriminate|]. cbn.
  destruct (attempt c st) eqn:E.
  - intros H. destruct (IH H) as (c' & ? & ?). exists c'. auto.
  - intros H. destruct (IH H) as (c' & ? & ?). exists c'. auto.
  - intros H; injection H as <-. exists c. auto.
Qed.

(** Cases over the nine candidates of the source. *)
Ltac each_candidate H :=
  unfold all_candidates in H; cbn in H;
  repeat (destruct H as [<- | H]); [..|contradiction].

Section Runs.

(** The instance of the template: [true] for [Odd], [false] for [Even]. *)
Variable odd : bool.

Lemma next_inv (st st' : State) :
  next odd st = Some st' ->
  exists c, In c all_candidates /\ attempt c st = Moved st'.
Proof.
  intros H. apply first_success_inv in H as (c & Hin & E).
  exists c. split; [|exact E].
  unfold all_candidates. apply in_app_or in Hin as [Hin | Hin].
  - destruct odd; cbn in Hin; rewrite !in_app_iff; auto.
  - rewrite !in_app_iff; auto.
Qed.

Lemma do_move_disks (c : Candidate) (st : State) :
  In c all_candidates ->
  legal (peg (tower st) (c_from c)) (peg (tower st) (c_to c)) = true ->
  disks (tower (do_move c st)) = disks (tower st).
Proof.
  intros Hin Hl. destruct (legal_inv _ _ Hl) as (f & from' & Hf).
  revert Hf. clear Hl. destruct st as [[p0 p1 p2] pv mv hs].
  unfold disks. each_candidate Hin; cbn; intros ->; cbn; lia.
Qed.

Lemma next_disks (st st' : State) :
  next odd st = Some st' -> disks (tower st') = disks (tower st).
Proof.
  intros H. apply next_inv in H as (c & Hin & E).
  apply attempt_Moved_inv in E as (_ & Hl & ->).
  now apply do_move_disks.
Qed.

Lemma run_disks (k : nat) (st st' : State) :
  run odd k st = Some st' -> disks (tower st') = disks (tower st).
Proof.
  revert st. induction k as [|k IH]; intros st; cbn.
  - now intros [= <-].
  - destruct (next odd st) as [s1|] eqn:E; [|discriminate].
    intros H. rewrite (IH _ H). eapply next_disks; eauto.
Qed.

(** After a move of the outer cascade a disk lies on peg 0 or 1. *)
Lemma backward_not_done (st st' : State) :
  first_success Hanoi_candidates st = Some st' ->
  (length (peg2 (tower st')) < disks (tower st'))%nat.
Proof.
  intros H. apply first_success_inv in H as (c & Hin & E).
  apply attempt_Moved_inv in E as (_ & Hl & ->).
  destruct (legal_inv _ _ Hl) as (f & from' & Hf).
  revert Hf. clear Hl. destruct st as [[p0 p1 p2] pv mv hs].
  unfold disks. cbn in Hin.
  repeat (destruct Hin as [<- | Hin]); [..|contradiction];
    cbn; intros ->; cbn; lia.
Qed.

Lemma run_S (k : nat) (st : State) :
  run odd (S k) st =
  match next odd st with
  | Some st' => run odd k st'
  | None => None
  end.
Proof. reflexivity. Qed.

Lemma run_add (j k : nat) (st : State) :
  run odd (j + k) st =
  match run odd j st with
  | Some s => run odd k s
  | None => None
  end.
Proof.
  revert st. induction j as [|j IH]; intros st; [reflexivity|].
  cbn. destruct (next odd st); [apply IH | reflexivity].
Qed.

(** A run that ends where no candidate moves contains every shorter run
    from the same state. *)
Lemma run_prefix (j : nat) :
  forall (k : nat) (st e x : State),
    run odd k st = Some e -> next odd e = None ->
    run odd j st = Some x ->
    (j <= k)%nat /\ run odd (k - j) x = Some e.
Proof.
  induction j as [|j IH]; intros k st e x Hk He Hj.
  - cbn in Hj. injection Hj as <-. rewrite Nat.sub_0_r. split; [lia|exact Hk].
  - cbn in Hj. destruct (next odd st) as [s1|] eqn:E1; [|discriminate].
    destruct k as [|k].
    + cbn in Hk. injection Hk as <-. congruence.
    + cbn in Hk. rewrite E1 in Hk.
      destruct (IH k s1 e x Hk He Hj). split; [lia|assumption].
Qed.

(** The inner loop is a run of moves that ends where its cascade fails. *)
Lemma sweep_run (st : State) :
  exists j, run odd j st = Some (sweep odd st) /\
            first_success (sweep_candidates odd) (sweep odd st) = None.
Proof.
  remember (rank st) as m eqn:Hm. revert st Hm.
  induction m as [m IH] using lt_wf_ind. intros st ->.
  destruct (first_success (sweep_candidates odd) st) as [s1|] eqn:E.
  - assert (Hr : (rank s1 < rank st)%nat).
    { apply (first_success_rank (sweep_candidates odd)); [|exact E].
      intros x Hx. apply in_or_app. destruct odd; auto. }
    destruct (IH _ Hr s1 eq_refl) as (j & Hj & Hn).
    exists (S j). rewrite (sweep_moved _ _ _ E). split; [|exact Hn].
    cbn. unfold next. rewrite first_success_app, E. exact Hj.
  - exists O. rewrite (sweep_break _ _ E). auto.
Qed.

Lemma Hanoi_loop_S (move : State -> State) (n fuel : nat) (st : State) :
  Hanoi_loop move n (S fuel) st =
  if (length (peg2 (tower st)) =? n)%nat then Some st
  else Hanoi_loop move n fuel (Hanoi_body move st).
Proof. reflexivity. Qed.

(** The outer loop returns the end of a run that stops, with all the
    disks on peg 2, where no candidate moves. *)
Lemma Hanoi_loop_run (n : nat) (k : nat) :
  forall (fuel : nat) (st e : State),
    run odd k st = Some e -> next odd e = None ->
    length (peg2 (tower e)) = n -> disks (tower st) = n ->
    (k = 0 \/ length (peg2 (tower st)) <> n)%nat ->
    (k < fuel)%nat ->
    Hanoi_loop (sweep odd) n fuel st = Some e.
Proof.
  induction k as [k IH] using lt_wf_ind.
  intros fuel st e Hk He Hn Hd H0 Hf.
  destruct fuel as [|fuel]; [lia|]. rewrite Hanoi_loop_S.
  destruct (Nat.eqb_spec (length (peg2 (tower st))) n) as [Hfull | Hnot].
  - destruct H0 as [-> | ?]; [|contradiction]. cbn in Hk. congruence.
  - unfold Hanoi_body.
    destruct (sweep_run st) as (j & Hj & Hstop).
    destruct (run_prefix j k st e _ Hk He Hj) as (Hle & Hrest).
    assert (Hd1 : disks (tower (sweep odd st)) = n)
      by (rewrite (run_disks _ _ _ Hj); exact Hd).
    destruct (k - j)%nat as [|r] eqn:Er.
    + cbn in Hrest. injection Hrest as Hrest. rewrite Hrest.
      unfold next in He. rewrite first_success_app in He.
      destruct (first_success (sweep_candidates odd) e); [discriminate|].
      rewrite He. destruct fuel as [|fuel]; [|rewrite Hanoi_loop_S].
      * destruct k; [|lia]. cbn in Hk. congruence.
      * rewrite <- Hn, Nat.eqb_refl. reflexivity.
    + rewrite run_S in Hrest. unfold next in Hrest.
      rewrite first_success_app, Hstop in Hrest.
      destruct (first_success Hanoi_candidates (sweep odd st)) as [s2|] eqn:E2;
        [|discriminate].
      assert (Hnext : next odd (sweep odd st) = Some s2)
        by (unfold next; now rewrite first_success_app, Hstop).
      assert (Hd2 : disks (tower s2) = n)
        by (rewrite <- Hd1; exact (next_disks _ _ Hnext)).
      apply (IH r); try assumption; try lia.
      right. apply backward_not_done in E2. lia.
Qed.

End Runs.

(* ================================================================== *)
(** * The textbook recursion, carried out by the driver                *)
(* ================================================================== *)

Lemma board_first_leg (r : Route) (a b c : Tower) :
  board (first_leg r) a c b = board r a b c.
Proof. now destruct r. Qed.

Lemma board_second_leg (r : Route) (a b c : Tower) :
  board (second_leg r) b a c = board r a b c.
Proof. now destruct r. Qed.

Lemma InitTower_from_snoc (n : nat) :
  forall i, InitTower_from i (S n) = InitTower_from i n ++ [i + Z.of_nat n].
Proof.
  induction n as [|n IH]; intros i.
  - cbn. now rewrite Z.add_0_r.
  - change (InitTower_from i (S (S n))) with (i :: InitTower_from (i + 1) (S n)).
    rewrite IH. change (InitTower_from i (S n)) with (i :: InitTower_from (i + 1) n).
    cbn [app]. do 3 f_equal. lia.
Qed.

Lemma up_S (n : nat) : up (S n) = up n ++ [Z.of_nat (S n)].
Proof.
  unfold up. rewrite InitTower_from_snoc. do 2 f_equal. lia.
Qed.

Lemma up_head (n : nat) (t : Tower) :
  exists rest, up (S n) ++ t = 1 :: rest.
Proof. unfold up. cbn. eauto. Qed.

Lemma hanoi_moves_S (n : nat) :
  hanoi_moves (S n) = (hanoi_moves n + S (hanoi_moves n))%nat.
Proof.
  unfold hanoi_moves. rewrite Nat.pow_succ_r'.
  assert (H : (2 ^ n <> 0)%nat) by (apply Nat.pow_nonzero; lia).
  revert H. generalize (2 ^ n)%nat. intros p H. lia.
Qed.

Section Textbook.

Variable odd : bool.

(** The greedy choice.  On a board laid out along route [r], the driver
    moves the top of the source to the target when that move is legal,
    the source is not the peg last moved to, the tops of the other two
    pegs cannot move, and the move to the spare is either illegal or tried
    later in the cascade. *)
Lemma pick (r : Route) (a b c : Tower) (st : State) :
  tower st = board r a b c ->
  previous st <> src r ->
  legal a c = true ->
  (previous st = via r \/ (legal b a = false /\ legal b c = false)) ->
  (previous st = dst r \/ (legal c a = false /\ legal c b = false)) ->
  (legal a b = false \/ (clockwise r = negb odd /\ base odd (via r) = true)) ->
  exists st', next odd st = Some st' /\
              tower st' = board r (tl a) b (hd 0 a :: c) /\
              previous st' = dst r.
Proof.
  intros Ht Hp Hac Hb Hc Hab.
  unfold next, sweep_candidates.
  destruct r, odd; cbn in Hp, Hb, Hc, Hab |- *;
    rewrite !attempt_legal, Ht; cbn.
  all: destruct Hab as [Hab | [? ?]]; try discriminate.
  all: destruct Hb as [Hb | [Hba Hbc]]; destruct Hc as [Hc | [Hca Hcb]].
  all: try lia.
  all: repeat match goal with
         | H : previous ?s = _ |- _ => rewrite H in *; cbn
         | H : legal _ _ = _ |- _ => rewrite H; cbn
         | |- context [previous ?s =? ?k] =>
             destruct (Z.eqb_spec (previous s) k); [try lia|]; cbn
         end.
  all: try (eexists; split; [reflexivity|]; cbn; rewrite Ht; cbn; auto).
Qed.

Lemma src_via (r : Route) : via r <> src r.
Proof. destruct r; cbn; lia. Qed.

Lemma via_dst (r : Route) : dst r <> via r.
Proof. destruct r; cbn; lia. Qed.

Lemma legal_above_l (n : Z) (t rest : Tower) :
  above n t -> legal t (n :: rest) = false.
Proof.
  destruct t as [|y t]; [reflexivity|]. cbn. intros H.
  rewrite legal_cons. destruct (Z.ltb_spec y n); [lia|reflexivity].
Qed.

Lemma legal_onto (i n : Z) (rest t : Tower) :
  above n t -> top_parity odd i t = negb (Z.odd n) ->
  legal (n :: rest) t = true.
Proof.
  destruct t as [|y t]; [reflexivity|]. cbn. intros H Hp.
  rewrite legal_cons, Hp. destruct (Z.ltb_spec n y); [|lia].
  now destruct (Z.odd n).
Qed.

Lemma above_weaken (n m : Z) (t : Tower) : n <= m -> above m t -> above n t.
Proof. destruct t; cbn; [auto|lia]. Qed.

Lemma odd_of_nat_S (n : nat) : Z.odd (Z.of_nat (S n)) = negb (Z.odd (Z.of_nat n)).
Proof. rewrite Nat2Z.inj_succ, Z.odd_succ, <- Z.negb_odd. reflexivity. Qed.

(** The driver carries [S n] disks along a route exactly as the textbook
    recursion does, whatever larger disks lie underneath, provided the
    parities underneath alternate and the route turns the right way. *)
Lemma solve (n : nat) :
  forall (r : Route) (a b c : Tower) (st : State),
    tower st = board r (up (S n) ++ a) b c ->
    above (Z.of_nat (S n)) a ->
    above (Z.of_nat (S n)) b ->
    above (Z.of_nat (S n)) c ->
    top_parity odd (src r) a = negb (Z.odd (Z.of_nat (S n))) ->
    top_parity odd (dst r) c = negb (Z.odd (Z.of_nat (S n))) ->
    top_parity odd (via r) b = Z.odd (Z.of_nat (S n)) ->
    clockwise r = xorb (Z.odd (Z.of_nat (S n))) odd ->
    previous st <> src r ->
    (previous st = via r \/ legal b c = false) ->
    (previous st = dst r \/ legal c b = false) ->
    exists st',
      run odd (hanoi_moves (S n)) st = Some st' /\
      tower st' = board r a b (up (S n) ++ c) /\
      previous st' = dst r.
Proof.
  induction n as [|n IH];
    intros r a b c st Ht Ha Hb Hc Pa Pc Pb Hr Hp Hpb Hpc.
  - (* one disk *)
    change (up 1 ++ a) with (1 :: a) in Ht.
    change (Z.of_nat 1) with 1 in *. change (Z.odd 1) with true in *.
    destruct (pick r (1 :: a) b c st Ht Hp) as (st' & Hn & Ht' & Hp').
    + eapply legal_onto; eauto.
    + destruct Hpb as [?|?]; [now left|right].
      split; [now apply legal_above_l | assumption].
    + destruct Hpc as [?|?]; [now left|right].
      split; [now apply legal_above_l | assumption].
    + destruct b as [|y b].
      * right. cbn in Pb. split; [|exact Pb].
        rewrite Hr. now destruct odd.
      * left. cbn in Pb. rewrite legal_cons. cbn. rewrite Pb.
        apply andb_false_r.
    + exists st'. change (hanoi_moves 1) with 1%nat. cbn [run].
      rewrite Hn. auto.
  - (* S (S n) disks: S n disks aside, the largest across, S n disks back *)
    set (m := Z.of_nat (S (S n))) in *.
    assert (Hm : Z.of_nat (S n) < m) by (unfold m; lia).
    assert (Om : Z.odd m = negb (Z.odd (Z.of_nat (S n))))
      by (unfold m; apply odd_of_nat_S).
    rewrite (up_S (S n)), <- app_assoc in Ht. cbn [app] in Ht. fold m in Ht.
    rewrite <- board_first_leg in Ht.
    destruct (IH (first_leg r) (m :: a) c b st Ht) as (s1 & R1 & T1 & P1).
    { exact Hm. }
    { eapply above_weaken; [|exact Hc]. lia. }
    { eapply above_weaken; [|exact Hb]. lia. }
    { cbn. exact Om. }
    { replace (dst (first_leg r)) with (via r) by now destruct r.
      rewrite Pb. exact Om. }
    { replace (via (first_leg r)) with (dst r) by now destruct r.
      rewrite Pc, Om. apply negb_involutive. }
    { replace (clockwise (first_leg r)) with (negb (clockwise r))
        by now destruct r.
      rewrite Hr, Om. now destruct (Z.odd (Z.of_nat (S n))), odd. }
    { now replace (src (first_leg r)) with (src r) by now destruct r. }
    { now replace (via (first_leg r)) with (dst r) by now destruct r. }
    { now replace (dst (first_leg r)) with (via r) by now destruct r. }
    rewrite board_first_leg in T1.
    replace (dst (first_leg r)) with (via r) in P1 by now destruct r.
    destruct (up_head n b) as (rest & Hrest). rewrite Hrest in T1.
    destruct (pick r (m :: a) (1 :: rest) c s1 T1) as (s2 & R2 & T2 & P2).
    { rewrite P1. apply src_via. }
    { eapply legal_onto; eauto. }
    { now left. }
    { right. split; [now apply legal_above_l|].
      apply legal_above_l. eapply above_weaken; [|exact Hc]. lia. }
    { left. rewrite legal_cons. destruct (Z.ltb_spec m 1); [lia|reflexivity]. }
    cbn [tl hd] in T2. rewrite <- Hrest in T2.
    rewrite <- board_second_leg in T2.
    destruct (IH (second_leg r) b a (m :: c) s2 T2) as (s3 & R3 & T3 & P3).
    { eapply above_weaken; [|exact Hb]. lia. }
    { eapply above_weaken; [|exact Ha]. lia. }
    { exact Hm. }
    { replace (src (second_leg r)) with (via r) by now destruct r.
      rewrite Pb. exact Om. }
    { cbn. exact Om. }
    { replace (via (second_leg r)) with (src r) by now destruct r.
      rewrite Pa, Om. apply negb_involutive. }
    { replace (clockwise (second_leg r)) with (negb (clockwise r))
        by now destruct r.
      rewrite Hr, Om. now destruct (Z.odd (Z.of_nat (S n))), odd. }
    { replace (src (second_leg r)) with (via r) by now destruct r.
      rewrite P2. apply via_dst. }
    { right. now apply legal_above_l. }
    { left. rewrite P2. now destruct r. }
    rewrite board_second_leg in T3.
    replace (dst (second_leg r)) with (dst r) in P3 by now destruct r.
    exists s3. split; [|split; [|exact P3]].
    + rewrite hanoi_moves_S, run_add, R1, run_S, R2. exact R3.
    + rewrite T3, (up_S (S n)), <- app_assoc. reflexivity.
Qed.

End Textbook.

(* ================================================================== *)
(** * The run from the starting board                                  *)
(* ================================================================== *)

Lemma odd_of_nat (n : nat) : Z.odd (Z.of_nat n) = Nat.odd n.
Proof.
  induction n as [|n IH]; [reflexivity|].
  rewrite odd_of_nat_S, IH, Nat.odd_succ, <- Nat.negb_odd. reflexivity.
Qed.

Lemma InitTower_from_length (n : nat) :
  forall i, length (InitTower_from i n) = n.
Proof. induction n as [|n IH]; intros i; cbn; [reflexivity | now rewrite IH]. Qed.

Lemma start_tower_up (n : nat) :
  start_tower (Z.of_nat n) = mkHanoiTower (up n) [] [].
Proof. unfold start_tower, InitTower, up. now rewrite Nat2Z.id. Qed.

Lemma up_length (n : nat) : length (up n) = n.
Proof. apply InitTower_from_length. Qed.

(** From the starting board the driver makes the [2 ^ n - 1] moves of the
    textbook solution and stops with the whole stack on peg 2. *)
Lemma solved (n : nat) :
  (1 <= n)%nat ->
  exists e,
    run (Nat.odd n) (hanoi_moves n) (init_state (start_tower (Z.of_nat n))) = Some e /\
    tower e = mkHanoiTower [] [] (up n) /\
    previous e = 2 /\
    next (Nat.odd n) e = None.
Proof.
  intros Hn. destruct n as [|n]; [lia|].
  pose proof (odd_of_nat (S n)) as Ho.
  destruct (solve (Nat.odd (S n)) n R012 [] [] []
              (init_state (start_tower (Z.of_nat (S n)))))
    as (e & Hr & Ht & Hp); cbn [src dst via top_parity above clockwise base];
    rewrite ?Ho; auto.
  - rewrite start_tower_up, app_nil_r. reflexivity.
  - now destruct (Nat.odd (S n)).
  - cbn. lia.
  - exists e. rewrite app_nil_r in Ht. cbn in Ht, Hp.
    repeat split; try assumption.
    unfold next, sweep_candidates.
    destruct (Nat.odd (S n)); cbn; rewrite !attempt_legal, Ht, Hp; reflexivity.
Qed.

Lemma pow2_gt_moves (n : nat) : (hanoi_moves n < 2 ^ n)%nat.
Proof.
  unfold hanoi_moves.
  assert (H : (2 ^ n <> 0)%nat) by (apply Nat.pow_nonzero; lia). lia.
Qed.

Lemma Hanoi_loop_mono (move : State -> State) (n fuel : nat) :
  forall (st e : State) (fuel' : nat),
    Hanoi_loop move n fuel st = Some e -> (fuel <= fuel')%nat ->
    Hanoi_loop move n fuel' st = Some e.
Proof.
  induction fuel as [|fuel IH]; intros st e fuel' H Hle; [discriminate|].
  destruct fuel' as [|fuel']; [lia|].
  rewrite Hanoi_loop_S in *.
  destruct (length (peg2 (tower st)) =? n)%nat; [exact H|].
  apply IH; [exact H | lia].
Qed.

Lemma Hanoi_unfold (n fuel : nat) :
  Hanoi (start_tower (Z.of_nat n)) fuel =
  match Hanoi_loop (sweep (Nat.odd n)) n fuel
          (init_state (start_tower (Z.of_nat n))) with
  | Some st => Some (st, report n st)
  | None => None
  end.
Proof.
  unfold Hanoi, Hanoi_with. rewrite start_tower_up. cbn [peg0].
  rewrite up_length. now destruct (Nat.odd n).
Qed.

(** [Hanoi] returns the end of the run, for every bound from [2 ^ n] on. *)
Lemma Hanoi_returns (n fuel : nat) :
  (1 <= n)%nat -> (2 ^ n <= fuel)%nat ->
  exists e,
    run (Nat.odd n) (hanoi_moves n) (init_state (start_tower (Z.of_nat n))) = Some e /\
    tower e = mkHanoiTower [] [] (up n) /\
    previous e = 2 /\
    Hanoi (start_tower (Z.of_nat n)) fuel = Some (e, report n e).
Proof.
  intros Hn Hf. destruct (solved n Hn) as (e & Hr & Ht & Hp & Hstop).
  exists e. repeat split; try assumption.
  rewrite Hanoi_unfold.
  rewrite (Hanoi_loop_run (Nat.odd n) n (hanoi_moves n) fuel _ e); auto.
  - rewrite Ht. cbn. apply up_length.
  - rewrite start_tower_up. unfold disks. cbn. rewrite up_length. lia.
  - right. rewrite start_tower_up. cbn. lia.
  - pose proof (pow2_gt_moves n). lia.
Qed.

(** Whatever the bound, [Hanoi] returns nothing else. *)
Lemma Hanoi_result (n fuel : nat) (st : State) (out : string) :
  (1 <= n)%nat ->
  Hanoi (start_tower (Z.of_nat n)) fuel = Some (st, out) ->
  run (Nat.odd n) (hanoi_moves n) (init_state (start_tower (Z.of_nat n))) = Some st /\
  tower st = mkHanoiTower [] [] (up n) /\
  previous st = 2 /\
  out = report n st.
Proof.
  intros Hn H.
  destruct (Hanoi_returns n (Nat.max fuel (2 ^ n)) Hn (Nat.le_max_r _ _))
    as (e & Hr & Ht & Hp & He).
  rewrite Hanoi_unfold in H, He.
  destruct (Hanoi_loop _ n fuel _) as [s|] eqn:E; [|discriminate].
  rewrite (Hanoi_loop_mono _ _ _ _ _ _ E (Nat.le_max_l _ _)) in He.
  injection H as <- <-. injection He as ->. auto.
Qed.

(* ================================================================== *)
(** * What every successful move preserves                             *)
(* ================================================================== *)

Lemma InitTower_from_seq (n : nat) :
  forall i : nat, InitTower_from (Z.of_nat i) n = map Z.of_nat (seq i n).
Proof.
  induction n as [|n IH]; intros i; [reflexivity|].
  cbn. f_equal. rewrite <- IH. f_equal. lia.
Qed.

Lemma up_sizes (n : nat) : up n = sizes n.
Proof. apply (InitTower_from_seq n 1). Qed.

Lemma InitTower_from_increasing (n : nat) :
  forall i, increasing (InitTower_from i n).
Proof.
  induction n as [|n IH]; intros i; [constructor|].
  cbn. constructor; [apply IH|].
  destruct n; cbn; constructor. lia.
Qed.

Section Histories.

Variable odd : bool.

Lemma next_step (st st' : State) :
  next odd st = Some st' ->
  exists c, In c all_candidates /\
            previous st <> c_from c /\
            legal (peg (tower st) (c_from c)) (peg (tower st) (c_to c)) = true /\
            c_prev c = c_to c /\
            st' = do_move c st.
Proof.
  intros H. apply next_inv in H as (c & Hin & E).
  apply attempt_Moved_inv in E as (Hg & Hl & ->).
  exists c. repeat split; try assumption.
  - each_candidate Hin; exact Hg.
  - each_candidate Hin; reflexivity.
Qed.

Lemma run_moves (k : nat) :
  forall st st',
    run odd k st = Some st' ->
    Int.wrap (moves st) = moves st ->
    moves st' = Int.wrap (moves st + Z.of_nat k).
Proof.
  induction k as [|k IH]; intros st st' H Hw.
  - cbn in H. injection H as <-. now rewrite Z.add_0_r.
  - rewrite run_S in H.
    destruct (next odd st) as [s1|] eqn:E; [|discriminate].
    destruct (next_step _ _ E) as (c & _ & _ & _ & _ & ->).
    rewrite (IH _ _ H); cbn [moves do_move]; unfold Int.incr.
    + rewrite wrap_add_l. f_equal. lia.
    + apply wrap_small, wrap_range.
Qed.

Lemma run_history_length (k : nat) :
  forall st st',
    run odd k st = Some st' ->
    length (history st') = (length (history st) + k)%nat.
Proof.
  induction k as [|k IH]; intros st st' H.
  - cbn in H. injection H as <-. lia.
  - rewrite run_S in H.
    destruct (next odd st) as [s1|] eqn:E; [|discriminate].
    destruct (next_step _ _ E) as (c & _ & _ & _ & _ & ->).
    rewrite (IH _ _ H). cbn [history do_move]. rewrite length_app. cbn. lia.
Qed.

(** A property of boards and of [previous] that each move of a candidate
    establishes holds of every entry that a run adds to the history. *)
Lemma run_history (P : HanoiTower -> Prop) (Q : Step -> Prop) :
  (forall c st, In c all_candidates ->
     legal (peg (tower st) (c_from c)) (peg (tower st) (c_to c)) = true ->
     P (tower st) ->
     P (tower (do_move c st)) /\
     Q (mkStep (c_from c) (c_to c) (tower (do_move c st)) (c_prev c))) ->
  forall k st st',
    run odd k st = Some st' ->
    P (tower st) -> Forall Q (history st) ->
    P (tower st') /\ Forall Q (history st').
Proof.
  intros Hstep. induction k as [|k IH]; intros st st' H HP HQ.
  - cbn in H. injection H as <-. auto.
  - rewrite run_S in H.
    destruct (next odd st) as [s1|] eqn:E; [|discriminate].
    destruct (next_step _ _ E) as (c & Hin & _ & Hl & _ & ->).
    destruct (Hstep c st Hin Hl HP) as [HP1 HQ1].
    apply (IH _ _ H HP1). cbn [history do_move].
    apply Forall_app. split; [exact HQ|]. constructor; [exact HQ1|constructor].
Qed.

End Histories.

Lemma increasing_tl (f : Z) (t : Tower) : increasing (f :: t) -> increasing t.
Proof. intros H. now inversion H. Qed.

Lemma increasing_push (f : Z) (from' to : Tower) :
  legal (f :: from') to = true -> increasing to -> increasing (f :: to).
Proof.
  intros Hl Hto. constructor; [exact Hto|].
  destruct to as [|t to]; constructor.
  rewrite legal_cons in Hl. apply andb_prop in Hl as [Hl _]. lia.
Qed.

Lemma do_move_well_stacked (c : Candidate) (st : State) :
  In c all_candidates ->
  legal (peg (tower st) (c_from c)) (peg (tower st) (c_to c)) = true ->
  well_stacked (tower st) -> well_stacked (tower (do_move c st)).
Proof.
  intros Hin Hl. destruct (legal_inv _ _ Hl) as (f & from' & Hf).
  revert Hl Hf. destruct st as [[p0 p1 p2] pv mv hs]. unfold well_stacked.
  each_candidate Hin; cbn; intros Hl ->; cbn; intros (H0 & H1 & H2);
    repeat split;
    solve [ assumption
          | eapply increasing_tl; eassumption
          | eapply increasing_push; eassumption ].
Qed.

Lemma do_move_holds_disks (n : nat) (c : Candidate) (st : State) :
  In c all_candidates ->
  legal (peg (tower st) (c_from c)) (peg (tower st) (c_to c)) = true ->
  holds_disks n (tower st) -> holds_disks n (tower (do_move c st)).
Proof.
  intros Hin Hl. destruct (legal_inv _ _ Hl) as (f & from' & Hf).
  revert Hf. clear Hl. destruct st as [[p0 p1 p2] pv mv hs]. unfold holds_disks.
  intros Hf H. eapply Permutation_trans; [|exact H]. clear H. revert Hf.
  each_candidate Hin; cbn; intros ->; cbn.
  - (* 0 -> 2 *)
    rewrite !app_assoc. symmetry. apply (Permutation_middle (from' ++ p1) p2 f).
  - (* 0 -> 1 *)
    symmetry. apply (Permutation_middle from' (p1 ++ p2) f).
  - (* 1 -> 2 *)
    apply Permutation_app_head. symmetry. apply Permutation_middle.
  - symmetry. apply (Permutation_middle from' (p1 ++ p2) f).
  - rewrite !app_assoc. symmetry. apply (Permutation_middle (from' ++ p1) p2 f).
  - apply Permutation_app_head. symmetry. apply Permutation_middle.
  - (* 2 -> 0 *)
    rewrite !app_assoc. apply (Permutation_middle (p0 ++ p1) from' f).
  - (* 2 -> 1 *)
    apply Permutation_app_head. apply Permutation_middle.
  - (* 1 -> 0 *)
    apply (Permutation_middle p0 (from' ++ p2) f).
Qed.

Lemma hanoi_moves_Z (n : nat) : Z.of_nat (hanoi_moves n) = 2 ^ Z.of_nat n - 1.
Proof.
  unfold hanoi_moves.
  assert (H : (2 ^ n <> 0)%nat) by (apply Nat.pow_nonzero; lia).
  rewrite Nat2Z.inj_sub by lia. rewrite Nat2Z.inj_pow. reflexivity.
Qed.

Lemma Hanoi_moves (n fuel : nat) (st : State) (out : string) :
  (1 <= n)%nat ->
  Hanoi (start_tower (Z.of_nat n)) fuel = Some (st, out) ->
  moves st = Int.wrap (2 ^ Z.of_nat n - 1) /\
  length (history st) = hanoi_moves n.
Proof.
  intros Hn H. destruct (Hanoi_result _ _ _ _ Hn H) as (Hr & _ & _ & _).
  split.
  - rewrite (run_moves _ _ _ _ Hr) by reflexivity.
    cbn [moves init_state]. now rewrite Z.add_0_l, hanoi_moves_Z.
  - now rewrite (run_history_length _ _ _ _ Hr).
Qed.

Lemma start_well_stacked (n : nat) : well_stacked (start_tower (Z.of_nat n)).
Proof.
  rewrite start_tower_up. repeat split; cbn; try constructor.
  apply InitTower_from_increasing.
Qed.

Lemma start_holds_disks (n : nat) : holds_disks n (start_tower (Z.of_nat n)).
Proof.
  rewrite start_tower_up. unfold holds_disks. cbn.
  now rewrite !app_nil_r, up_sizes.
Qed.

Lemma Hanoi_mono (t : HanoiTower) (fuel fuel' : nat) (r : State * string) :
  Hanoi t fuel = Some r -> (fuel <= fuel')%nat -> Hanoi t fuel' = Some r.
Proof.
  unfold Hanoi, Hanoi_with. intros H Hle.
  destruct (Nat.odd (length (peg0 t)));
    destruct (Hanoi_loop _ _ fuel _) as [s|] eqn:E; try discriminate;
    now rewrite (Hanoi_loop_mono _ _ _ _ _ _ E Hle).
Qed.

Lemma stoi_range (s : string) (v : Z) :
  stoi s = Some v -> Int.min_int <= v <= Int.max_int.
Proof.
  unfold stoi.
  destruct (match skip_spaces s with
            | String "-"%char r => (true, r)
            | String "+"%char r => (false, r)
            | _ => (false, skip_spaces s)
            end) as [negative s2].
  destruct (read_digits s2 None) as [d|]; [|discriminate].
  generalize (if negative then - d else d). intros w.
  destruct (Z.leb_spec Int.min_int w);
    destruct (Z.leb_spec w Int.max_int);
    cbn [andb]; try discriminate.
  intros [= <-]. lia.
Qed.

Lemma abs_int (v : Z) :
  v <> Int.min_int -> Int.abs v = Some (Z.abs v).
Proof.
  intros H. unfold Int.abs.
  destruct (Z.eqb_spec v Int.min_int); [contradiction|reflexivity].
Qed.

(** What [DisksCount] does with an argument that is parsed to an [int]
    other than [INT_MIN]. *)
Lemma DisksCount_parsed (argv : list string) (v : Z) :
  (2 <= length argv)%nat ->
  stoi (nth 1 argv EmptyString) = Some v ->
  v <> Int.min_int ->
  DisksCount argv =
    Returns (if Z.abs v <? 1 then (3, [notice_too_few (Z.abs v)])
             else (Z.abs v, if Z.abs v >? 25 then [notice_large] else [])).
Proof.
  intros H Hs Hv. unfold DisksCount.
  destruct (Z.ltb_spec (Z.of_nat (length argv)) 2); [lia|].
  rewrite Hs, (abs_int _ Hv).
  destruct (Z.abs v <? 1); [reflexivity|].
  now destruct (Z.abs v >? 25).
Qed.

(** Every way in which [DisksCount] returns. *)
Lemma DisksCount_returns (argv : list string) (n : Z) (out : list string) :
  DisksCount argv = Returns (n, out) ->
  ((length argv < 2)%nat /\ n = 3 /\ out = [notice_default 3]) \/
  (exists v,
     (2 <= length argv)%nat /\
     stoi (nth 1 argv EmptyString) = Some v /\
     Int.min_int < v <= Int.max_int /\
     (n, out) = (if Z.abs v <? 1 then (3, [notice_too_few (Z.abs v)])
                 else (Z.abs v, if Z.abs v >? 25 then [notice_large] else []))).
Proof.
  intros H. destruct (Nat.lt_ge_cases (length argv) 2) as [Hlt | Hge].
  - left. revert H. unfold DisksCount.
    destruct (Z.ltb_spec (Z.of_nat (length argv)) 2); [|lia].
    now intros [= <- <-].
  - right. destruct (stoi (nth 1 argv EmptyString)) as [v|] eqn:Hs.
    + pose proof (stoi_range _ _ Hs) as Hr.
      destruct (Z.eq_dec v Int.min_int) as [-> | Hv].
      * revert H. unfold DisksCount.
        destruct (Z.ltb_spec (Z.of_nat (length argv)) 2); [lia|].
        rewrite Hs. discriminate.
      * exists v. rewrite (DisksCount_parsed _ _ Hge Hs Hv) in H.
        injection H as H. repeat split; auto; lia.
    + revert H. unfold DisksCount.
      destruct (Z.ltb_spec (Z.of_nat (length argv)) 2); [lia|].
      rewrite Hs. discriminate.
Qed.

(* ================================================================== *)
(** * The move primitive                                               *)
(* ================================================================== *)

(** C2. [Move(src, dst)] returns true exactly when [src] is not empty and,
    if [dst] is not empty, the top of [src] is smaller than the top of
    [dst] and of the other parity.  When it returns true the top of [src]
    has become the top of [dst].  Two tops of the same parity are always
    rejected, whatever their sizes. *)
Theorem C2_Move_succeeds_iff (src_peg dst_peg : Tower) :
  (fst (Move src_peg dst_peg) = true <-> spec_move_allowed src_peg dst_peg) /\
  (fst (Move src_peg dst_peg) = true ->
   exists f rest, src_peg = f :: rest /\
                  Move src_peg dst_peg = (true, (rest, f :: dst_peg))) /\
  (forall f t rest rest',
     src_peg = f :: rest -> dst_peg = t :: rest' -> Z.odd f = Z.odd t ->
     Move src_peg dst_peg = (false, (src_peg, dst_peg))).
Proof.
  fold (legal src_peg dst_peg). unfold spec_move_allowed.
  split; [|split].
  - destruct src_peg as [|f rest].
    + rewrite legal_nil_l. split; [discriminate | now intros [? _]].
    + destruct dst_peg as [|t rest'].
      * rewrite legal_nil_r. split; [|reflexivity].
        intros _. repeat split; congruence.
      * rewrite legal_cons. cbn [hd]. split.
        -- intros H. apply andb_prop in H as [Hlt Hx].
           repeat split; try discriminate; intros _; [lia|].
           now destruct (Z.odd f), (Z.odd t).
        -- intros (_ & Hlt & Hpar).
           assert (t :: rest' <> []) as Hne by discriminate.
           specialize (Hlt Hne). specialize (Hpar Hne).
           apply andb_true_intro. split; [lia|].
           now destruct (Z.odd f), (Z.odd t).
  - intros H. destruct (legal_inv _ _ H) as (f & rest & ->).
    exists f, rest. split; [reflexivity|].
    rewrite Move_legal, H. reflexivity.
  - intros f t rest rest' -> -> Hpar.
    rewrite Move_legal, legal_cons, Hpar.
    now destruct (Z.odd t), (f <? t).
Qed.

(** C3. When [Move(src, dst)] returns false, both pegs are as they were
    before the call. *)
Theorem C3_Move_failure_changes_nothing (src_peg dst_peg : Tower) :
  fst (Move src_peg dst_peg) = false ->
  snd (Move src_peg dst_peg) = (src_peg, dst_peg).
Proof.
  fold (legal src_peg dst_peg). intros H. now rewrite Move_legal, H.
Qed.

(** A larger disk of the same parity is refused and nothing moves. *)
Lemma C3_witness :
  fst (Move [3; 4] [1]) = false /\ snd (Move [3; 4] [1]) = ([3; 4], [1]).
Proof.
  split; [reflexivity|].
  apply (C3_Move_failure_changes_nothing [3; 4] [1]). reflexivity.
Defined.

(* ================================================================== *)
(** * The solver                                                       *)
(* ================================================================== *)

(** C1, with the bound that the [int] counter needs.  For every disk
    count [N >= 1] the solver returns after exactly [2 ^ N - 1] successful
    moves and prints its counter.  The counter is that number reduced to
    32 bits; it equals [2 ^ N - 1] for every [N] up to 31. *)
Theorem C1_solver_terminates_and_counts (N fuel : nat) :
  (1 <= N)%nat -> (2 ^ N <= fuel)%nat ->
  exists st out,
    Hanoi (start_tower (Z.of_nat N)) fuel = Some (st, out) /\
    out = report N st /\
    length (history st) = (2 ^ N - 1)%nat /\
    moves st = Int.wrap (2 ^ Z.of_nat N - 1) /\
    ((N <= 31)%nat -> moves st = 2 ^ Z.of_nat N - 1).
Proof.
  intros Hn Hf.
  destruct (Hanoi_returns N fuel Hn Hf) as (e & _ & _ & _ & He).
  destruct (Hanoi_moves _ _ _ _ Hn He) as [Hm Hl].
  exists e, (report N e). repeat split; try assumption.
  intros H31. rewrite Hm. apply wrap_small.
  unfold Int.min_int, Int.max_int.
  assert (0 < 2 ^ Z.of_nat N) by (apply Z.pow_pos_nonneg; lia).
  assert (2 ^ Z.of_nat N <= 2 ^ 31) by (apply Z.pow_le_mono_r; lia).
  lia.
Qed.

(** The same for three disks and a bound of eight. *)
Lemma C1_witness :
  (1 <= 3)%nat /\ (2 ^ 3 <= 8)%nat /\
  exists st out,
    Hanoi (start_tower (Z.of_nat 3)) 8 = Some (st, out) /\
    out = report 3 st /\
    length (history st) = (2 ^ 3 - 1)%nat /\
    moves st = Int.wrap (2 ^ Z.of_nat 3 - 1) /\
    ((3 <= 31)%nat -> moves st = 2 ^ Z.of_nat 3 - 1).
Proof.
  split; [lia|]. split; [simpl; lia|].
  apply (C1_solver_terminates_and_counts 3 8); simpl; lia.
Defined.

(** C1 does not hold without that bound.  For 32 disks the solver
    returns, and the counter it reports is not [2 ^ 32 - 1], a number that
    no [int] holds; in this embedding it is [-1]. *)
Lemma C1_counterexample :
  (exists fuel r, Hanoi (start_tower 32) fuel = Some r) /\
  (forall fuel st out,
     Hanoi (start_tower 32) fuel = Some (st, out) -> moves st = -1) /\
  ~ (exists fuel st out,
       Hanoi (start_tower 32) fuel = Some (st, out) /\ moves st = 2 ^ 32 - 1).
Proof.
  assert (H1 : (1 <= 32)%nat) by (repeat constructor).
  assert (Hall : forall fuel st out,
            Hanoi (start_tower 32) fuel = Some (st, out) -> moves st = -1).
  { intros fuel st out H. change 32 with (Z.of_nat 32) in H.
    destruct (Hanoi_moves 32 fuel st out H1 H) as [Hw _].
    rewrite Hw. reflexivity. }
  split; [|split].
  - destruct (Hanoi_returns 32 (2 ^ 32) H1 (le_n _)) as (e & _ & _ & _ & He).
    exists (2 ^ 32)%nat, (e, report 32 e). exact He.
  - exact Hall.
  - intros (fuel & st & out & H & Hm).
    rewrite (Hall _ _ _ H) in Hm. discriminate Hm.
Qed.

(** C4. For every [N >= 1] the outer loop exits, and when it does pegs 0
    and 1 are empty and peg 2 holds [1, 2, ..., N] from the front. *)
Theorem C4_final_board (N : nat) :
  (1 <= N)%nat ->
  (forall fuel, (2 ^ N <= fuel)%nat ->
     exists r, Hanoi (start_tower (Z.of_nat N)) fuel = Some r) /\
  (forall fuel st out,
     Hanoi (start_tower (Z.of_nat N)) fuel = Some (st, out) ->
     length (peg2 (tower st)) = N /\
     peg0 (tower st) = [] /\
     peg1 (tower st) = [] /\
     peg2 (tower st) = sizes N).
Proof.
  intros Hn. split.
  - intros fuel Hf.
    destruct (Hanoi_returns N fuel Hn Hf) as (e & _ & _ & _ & He). eauto.
  - intros fuel st out H.
    destruct (Hanoi_result _ _ _ _ Hn H) as (_ & Ht & _ & _).
    rewrite Ht. cbn. rewrite up_length, up_sizes. auto.
Qed.

(** The same for four disks. *)
Lemma C4_witness :
  (1 <= 4)%nat /\
  (forall fuel, (2 ^ 4 <= fuel)%nat ->
     exists r, Hanoi (start_tower (Z.of_nat 4)) fuel = Some r) /\
  (forall fuel st out,
     Hanoi (start_tower (Z.of_nat 4)) fuel = Some (st, out) ->
     length (peg2 (tower st)) = 4%nat /\
     peg0 (tower st) = [] /\
     peg1 (tower st) = [] /\
     peg2 (tower st) = sizes 4).
Proof.
  split; [lia|]. apply (C4_final_board 4). lia.
Defined.

(** C5. For every [N >= 1], in every configuration that the driver
    reaches from the starting board and in which peg 2 does not hold all
    the disks, some guarded candidate of the inner or of the outer cascade
    moves, and one more pass through the body of the outer loop records
    at least one more move; so the loop ends. *)
Theorem C5_driver_never_stuck (N : nat) :
  (1 <= N)%nat ->
  (forall k st,
     run (Nat.odd N) k (init_state (start_tower (Z.of_nat N))) = Some st ->
     length (peg2 (tower st)) <> N ->
     (exists st', next (Nat.odd N) st = Some st') /\
     (length (history st) <
      length (history (Hanoi_body (sweep (Nat.odd N)) st)))%nat) /\
  (forall fuel, (2 ^ N <= fuel)%nat ->
     exists r, Hanoi (start_tower (Z.of_nat N)) fuel = Some r).
Proof.
  intros Hn. split.
  - intros k st Hk Hnot.
    destruct (solved N Hn) as (e & Hr & Ht & _ & Hstop).
    destruct (run_prefix _ _ _ _ _ _ Hr Hstop Hk) as (_ & Hrest).
    assert (Hnext : exists st', next (Nat.odd N) st = Some st').
    { destruct (hanoi_moves N - k)%nat as [|r].
      - cbn in Hrest. injection Hrest as ->. rewrite Ht in Hnot. cbn in Hnot.
        now rewrite up_length in Hnot.
      - rewrite run_S in Hrest.
        destruct (next (Nat.odd N) st) as [s1|]; [eauto|discriminate]. }
    split; [exact Hnext|].
    destruct Hnext as (s1 & Hs1).
    unfold Hanoi_body.
    destruct (sweep_run (Nat.odd N) st) as (j & Hj & Hbreak).
    pose proof (run_history_length _ _ _ _ Hj) as Hlen.
    destruct (first_success Hanoi_candidates (sweep (Nat.odd N) st))
      as [s2|] eqn:E2.
    + assert (Hn2 : next (Nat.odd N) (sweep (Nat.odd N) st) = Some s2)
        by (unfold next; now rewrite first_success_app, Hbreak).
      pose proof (run_history_length (Nat.odd N) 1 (sweep (Nat.odd N) st) s2) as H2.
      rewrite run_S, Hn2 in H2. specialize (H2 eq_refl). lia.
    + destruct j as [|j]; [|lia].
      cbn in Hj. injection Hj as Hj. rewrite <- Hj in Hbreak, E2.
      unfold next in Hs1. rewrite first_success_app, Hbreak, E2 in Hs1.
      discriminate.
  - intros fuel Hf.
    destruct (Hanoi_returns N fuel Hn Hf) as (e & _ & _ & _ & He). eauto.
Qed.

(** The same for three disks. *)
Lemma C5_witness :
  (1 <= 3)%nat /\
  (forall k st,
     run (Nat.odd 3) k (init_state (start_tower (Z.of_nat 3))) = Some st ->
     length (peg2 (tower st)) <> 3%nat ->
     (exists st', next (Nat.odd 3) st = Some st') /\
     (length (history st) <
      length (history (Hanoi_body (sweep (Nat.odd 3)) st)))%nat) /\
  (forall fuel, (2 ^ 3 <= fuel)%nat ->
     exists r, Hanoi (start_tower (Z.of_nat 3)) fuel = Some r).
Proof.
  split; [lia|]. apply (C5_driver_never_stuck 3). lia.
Defined.

(** C6. For every [N >= 1], after every successful move of the run each
    of the three pegs, read from the front, is strictly increasing. *)
Theorem C6_pegs_strictly_increasing (N : nat) :
  (1 <= N)%nat ->
  (forall k st,
     run (Nat.odd N) k (init_state (start_tower (Z.of_nat N))) = Some st ->
     well_stacked (tower st)) /\
  (forall fuel st out,
     Hanoi (start_tower (Z.of_nat N)) fuel = Some (st, out) ->
     length (history st) = (2 ^ N - 1)%nat /\
     Forall (fun s => well_stacked (step_tower s)) (history st)).
Proof.
  intros Hn.
  assert (Hrun : forall k st,
    run (Nat.odd N) k (init_state (start_tower (Z.of_nat N))) = Some st ->
    well_stacked (tower st) /\
    Forall (fun s => well_stacked (step_tower s)) (history st)).
  { intros k st Hk.
    apply (run_history (Nat.odd N) well_stacked
             (fun s => well_stacked (step_tower s))) with (2 := Hk).
    - intros c s Hin Hl Hs. cbn [step_tower].
      split; now apply do_move_well_stacked.
    - apply start_well_stacked.
    - constructor. }
  split.
  - intros k st Hk. now apply (Hrun k).
  - intros fuel st out H.
    destruct (Hanoi_moves _ _ _ _ Hn H) as [_ Hl].
    destruct (Hanoi_result _ _ _ _ Hn H) as (Hr & _).
    split; [exact Hl | now apply (Hrun _ _ Hr)].
Qed.

(** The same for three disks. *)
Lemma C6_witness :
  (1 <= 3)%nat /\
  (forall k st,
     run (Nat.odd 3) k (init_state (start_tower (Z.of_nat 3))) = Some st ->
     well_stacked (tower st)) /\
  (forall fuel st out,
     Hanoi (start_tower (Z.of_nat 3)) fuel = Some (st, out) ->
     length (history st) = (2 ^ 3 - 1)%nat /\
     Forall (fun s => well_stacked (step_tower s)) (history st)).
Proof.
  split; [lia|]. apply (C6_pegs_strictly_increasing 3). lia.
Defined.

(** C7. For every [N >= 1], after every successful move of the run the
    disks of the three pegs together are exactly the disks [1 .. N], each
    one once. *)
Theorem C7_disks_conserved (N : nat) :
  (1 <= N)%nat ->
  (forall k st,
     run (Nat.odd N) k (init_state (start_tower (Z.of_nat N))) = Some st ->
     holds_disks N (tower st)) /\
  (forall fuel st out,
     Hanoi (start_tower (Z.of_nat N)) fuel = Some (st, out) ->
     length (history st) = (2 ^ N - 1)%nat /\
     Forall (fun s => holds_disks N (step_tower s)) (history st)).
Proof.
  intros Hn.
  assert (Hrun : forall k st,
    run (Nat.odd N) k (init_state (start_tower (Z.of_nat N))) = Some st ->
    holds_disks N (tower st) /\
    Forall (fun s => holds_disks N (step_tower s)) (history st)).
  { intros k st Hk.
    apply (run_history (Nat.odd N) (holds_disks N)
             (fun s => holds_disks N (step_tower s))) with (2 := Hk).
    - intros c s Hin Hl Hs. cbn [step_tower].
      split; now apply do_move_holds_disks.
    - apply start_holds_disks.
    - constructor. }
  split.
  - intros k st Hk. now apply (Hrun k).
  - intros fuel st out H.
    destruct (Hanoi_moves _ _ _ _ Hn H) as [_ Hl].
    destruct (Hanoi_result _ _ _ _ Hn H) as (Hr & _).
    split; [exact Hl | now apply (Hrun _ _ Hr)].
Qed.

(** The same for three disks. *)
Lemma C7_witness :
  (1 <= 3)%nat /\
  (forall k st,
     run (Nat.odd 3) k (init_state (start_tower (Z.of_nat 3))) = Some st ->
     holds_disks 3 (tower st)) /\
  (forall fuel st out,
     Hanoi (start_tower (Z.of_nat 3)) fuel = Some (st, out) ->
     length (history st) = (2 ^ 3 - 1)%nat /\
     Forall (fun s => holds_disks 3 (step_tower s)) (history st)).
Proof.
  split; [lia|]. apply (C7_disks_conserved 3). lia.
Defined.

(** C8. [previous] is 2 when the run starts, with no move made yet; every
    successful move leaves [previous] equal to the index of the peg it
    moved to; and each of the nine candidates calls [Move] exactly when
    [previous] differs from the index of its source peg. *)
Theorem C8_previous_is_last_destination (N : nat) :
  (1 <= N)%nat ->
  (previous (init_state (start_tower (Z.of_nat N))) = 2 /\
   history (init_state (start_tower (Z.of_nat N))) = []) /\
  (forall k st st',
     run (Nat.odd N) k (init_state (start_tower (Z.of_nat N))) = Some st ->
     next (Nat.odd N) st = Some st' ->
     exists from to,
       previous st <> from /\
       previous st' = to /\
       history st' = history st ++ [mkStep from to (tower st') to]) /\
  (forall fuel st out,
     Hanoi (start_tower (Z.of_nat N)) fuel = Some (st, out) ->
     length (history st) = (2 ^ N - 1)%nat /\
     Forall (fun s => step_previous s = step_to s) (history st)) /\
  (forall c st,
     In c (Odd_candidates ++ Even_candidates ++ Hanoi_candidates) ->
     (attempt c st <> Skipped <-> previous st <> c_from c)).
Proof.
  intros Hn. split; [split; reflexivity|]. split; [|split].
  - intros k st st' _ Hnext.
    destruct (next_step _ _ _ Hnext) as (c & _ & Hg & _ & Hp & ->).
    exists (c_from c), (c_to c). cbn [previous history tower do_move].
    rewrite Hp. auto.
  - intros fuel st out H.
    destruct (Hanoi_moves _ _ _ _ Hn H) as [_ Hl].
    destruct (Hanoi_result _ _ _ _ Hn H) as (Hr & _).
    split; [exact Hl|].
    apply (run_history (Nat.odd N) (fun _ => True)
             (fun s => step_previous s = step_to s)) with (2 := Hr).
    + intros c s Hin _ _. split; [exact I|]. cbn.
      each_candidate Hin; reflexivity.
    + exact I.
    + constructor.
  - intros c st Hin. fold all_candidates in Hin.
    rewrite attempt_legal.
    assert (Hg : c_guard c = c_from c) by (each_candidate Hin; reflexivity).
    rewrite Hg.
    destruct (Z.eqb_spec (previous st) (c_from c)) as [E | E].
    + split; intros H; congruence.
    + split; [auto|]. intros _. now destruct (legal _ _).
Qed.

(** The same for three disks. *)
Lemma C8_witness :
  (1 <= 3)%nat /\
  (previous (init_state (start_tower (Z.of_nat 3))) = 2 /\
   history (init_state (start_tower (Z.of_nat 3))) = []) /\
  (forall k st st',
     run (Nat.odd 3) k (init_state (start_tower (Z.of_nat 3))) = Some st ->
     next (Nat.odd 3) st = Some st' ->
     exists from to,
       previous st <> from /\
       previous st' = to /\
       history st' = history st ++ [mkStep from to (tower st') to]) /\
  (forall fuel st out,
     Hanoi (start_tower (Z.of_nat 3)) fuel = Some (st, out) ->
     length (history st) = (2 ^ 3 - 1)%nat /\
     Forall (fun s => step_previous s = step_to s) (history st)) /\
  (forall c st,
     In c (Odd_candidates ++ Even_candidates ++ Hanoi_candidates) ->
     (attempt c st <> Skipped <-> previous st <> c_from c)).
Proof.
  split; [lia|]. apply (C8_previous_is_last_destination 3). lia.
Defined.

(** C9. For three disks the solver makes the moves (0->2), (0->1), (2->1),
    (0->2), (1->0), (1->2), (0->2), in this order, and prints
    [3 disks done in 7 moves]. *)
Theorem C9_three_disks (fuel : nat) :
  (8 <= fuel)%nat ->
  exists st,
    Hanoi (start_tower 3) fuel = Some (st, "3 disks done in 7 moves"%string) /\
    move_list st = [(0, 2); (0, 1); (2, 1); (0, 2); (1, 0); (1, 2); (0, 2)] /\
    moves st = 7.
Proof.
  intros Hf.
  pose proof (Hanoi_mono (start_tower 3) 8 fuel) as M.
  destruct (Hanoi (start_tower 3) 8) as [[st out]|] eqn:E;
    vm_compute in E; [|discriminate].
  exists st. rewrite (M _ eq_refl Hf).
  injection E as <- <-. repeat split.
Qed.

(** The same at the bound of eight. *)
Lemma C9_witness :
  (8 <= 8)%nat /\
  exists st,
    Hanoi (start_tower 3) 8 = Some (st, "3 disks done in 7 moves"%string) /\
    move_list st = [(0, 2); (0, 1); (2, 1); (0, 2); (1, 0); (1, 2); (0, 2)] /\
    moves st = 7.
Proof.
  split; [lia|]. apply (C9_three_disks 8). lia.
Defined.

(* ================================================================== *)
(** * The command line                                                 *)
(* ================================================================== *)

(** C10. [DisksCount] returns 3 and prints a notice when no argument is
    given.  An argument that [std::stoi] parses to an [int] other than
    [INT_MIN] is replaced by its absolute value; a value below 1 prints a
    notice and becomes 3.  The argument [-5] gives 5 disks and a run of 31
    moves, and whatever the call returns where it is defined is at least
    1.  For the argument [-2147483648] the call [std::abs(INT_MIN)] is
    undefined, and with it [DisksCount] and [main]: the test
    [disks_count < 1] of the source comes after it and cannot make up for
    it. *)
Theorem C10_DisksCount :
  (forall argv,
     (length argv < 2)%nat ->
     DisksCount argv = Returns (3, [notice_default 3])) /\
  (forall argv v,
     (2 <= length argv)%nat ->
     stoi (nth 1 argv EmptyString) = Some v ->
     v <> Int.min_int ->
     DisksCount argv =
       Returns (if Z.abs v <? 1 then (3, [notice_too_few (Z.abs v)])
                else (Z.abs v, if Z.abs v >? 25 then [notice_large] else []))) /\
  (stoi "-5" = Some (-5) /\
   DisksCount ["HanoiTowers"; "-5"]%string = Returns (5, []) /\
   exists st,
     main ["HanoiTowers"; "-5"]%string 32 =
       Returns (5, [], Some (st, "5 disks done in 31 moves"%string)) /\
     moves st = 31 /\ length (history st) = 31%nat) /\
  (forall argv n out, DisksCount argv = Returns (n, out) -> 1 <= n) /\
  (stoi "-2147483648" = Some Int.min_int /\
   Int.abs Int.min_int = None /\
   DisksCount ["HanoiTowers"; "-2147483648"]%string = Undefined /\
   forall fuel, main ["HanoiTowers"; "-2147483648"]%string fuel = Undefined).
Proof.
  split; [|split; [|split; [|split]]].
  - intros argv H. unfold DisksCount.
    destruct (Z.ltb_spec (Z.of_nat (length argv)) 2); [reflexivity|lia].
  - exact DisksCount_parsed.
  - split; [reflexivity|]. split; [reflexivity|].
    destruct (main ["HanoiTowers"; "-5"]%string 32)
      as [[[n out] [[st line]|]]| |] eqn:E; vm_compute in E;
      try discriminate.
    exists st. injection E as <- <- <- <-. repeat split.
  - intros argv n out H.
    destruct (DisksCount_returns _ _ _ H)
      as [(_ & -> & _) | (v & _ & _ & _ & E)]; [lia|].
    destruct (Z.ltb_spec (Z.abs v) 1); injection E as -> _; lia.
  - repeat split.
Qed.

(* ================================================================== *)
(** * Further properties: [InitTower] and [Move] on any pegs           *)
(* ================================================================== *)

Lemma InitTower_from_alternating (n : nat) :
  forall i, alternating (InitTower_from i n).
Proof.
  induction n as [|n IH]; intros i; [constructor|].
  cbn. constructor; [apply IH|].
  destruct n; cbn; constructor.
  rewrite Z.odd_add. cbn. now destruct (Z.odd i).
Qed.

(** X1. For every count below [INT_MAX] (at [INT_MAX] the loop variable of
    the source would overflow), [InitTower(disks_count)] is the list 1, 2,
    ..., [disks_count], smallest disk in front; it is empty when the count
    is not positive, it has as many disks as the count says, and it is
    strictly increasing with neighbours of different parity. *)
Theorem X1_InitTower (disks_count : Z) :
  disks_count < Int.max_int ->
  InitTower disks_count = map Z.of_nat (seq 1 (Z.to_nat disks_count)) /\
  Z.of_nat (length (InitTower disks_count)) = Z.max 0 disks_count /\
  (disks_count <= 0 -> InitTower disks_count = []) /\
  increasing (InitTower disks_count) /\
  alternating (InitTower disks_count).
Proof.
  intros _. unfold InitTower. repeat split.
  - apply (InitTower_from_seq _ 1).
  - rewrite InitTower_from_length. lia.
  - intros H. replace (Z.to_nat disks_count) with O by lia. reflexivity.
  - apply InitTower_from_increasing.
  - apply InitTower_from_alternating.
Qed.

(** Three disks. *)
Lemma X1_witness :
  3 < Int.max_int /\
  InitTower 3 = map Z.of_nat (seq 1 (Z.to_nat 3)) /\
  Z.of_nat (length (InitTower 3)) = Z.max 0 3 /\
  (3 <= 0 -> InitTower 3 = []) /\
  increasing (InitTower 3) /\
  alternating (InitTower 3).
Proof.
  assert (H : 3 < Int.max_int) by reflexivity.
  split; [exact H|]. apply (X1_InitTower 3 H).
Defined.

(** X2. [Move] keeps strictly increasing pegs strictly increasing, whether
    it moves a disk or not. *)
Theorem X2_Move_keeps_pegs_increasing (from to : Tower) :
  increasing from -> increasing to ->
  increasing (fst (snd (Move from to))) /\
  increasing (snd (snd (Move from to))).
Proof.
  intros Hf Ht. rewrite Move_legal.
  destruct (legal from to) eqn:E; [|now split].
  destruct (legal_inv _ _ E) as (f & from' & ->). cbn. split.
  - eapply increasing_tl; eassumption.
  - eapply increasing_push; eassumption.
Qed.

(** Two sorted pegs on which the move is made. *)
Lemma X2_witness :
  increasing [1; 2] /\ increasing [4] /\
  increasing (fst (snd (Move [1; 2] [4]))) /\
  increasing (snd (snd (Move [1; 2] [4]))).
Proof.
  assert (H1 : increasing [1; 2]) by (repeat constructor).
  assert (H2 : increasing [4]) by (repeat constructor).
  split; [exact H1|]. split; [exact H2|].
  apply (X2_Move_keeps_pegs_increasing [1; 2] [4] H1 H2).
Defined.

(** X3. [Move] neither creates nor loses a disk: the two pegs together
    hold the same disks after the call as before it, and a move that
    succeeds takes exactly one disk off the source and puts exactly one on
    the destination. *)
Theorem X3_Move_conserves_disks (from to : Tower) :
  Permutation (fst (snd (Move from to)) ++ snd (snd (Move from to)))
              (from ++ to) /\
  (fst (Move from to) = true ->
   length from = S (length (fst (snd (Move from to)))) /\
   length (snd (snd (Move from to))) = S (length to)).
Proof.
  rewrite Move_legal.
  destruct (legal from to) eqn:E; cbn; [|split; [reflexivity|discriminate]].
  destruct (legal_inv _ _ E) as (f & from' & ->). cbn. split.
  - symmetry. apply Permutation_middle.
  - auto.
Qed.

Lemma alternating_tl (f : Z) (t : Tower) : alternating (f :: t) -> alternating t.
Proof. intros H. now inversion H. Qed.

Lemma alternating_push (f : Z) (from' to : Tower) :
  legal (f :: from') to = true -> alternating to -> alternating (f :: to).
Proof.
  intros Hl Hto. constructor; [exact Hto|].
  destruct to as [|t to]; constructor.
  rewrite legal_cons in Hl. apply andb_prop in Hl as [_ Hx].
  now destruct (Z.odd f), (Z.odd t).
Qed.

(** X4. [Move] keeps the parities alternating: if on each of the two pegs
    neighbouring disks differ in parity, they still do after the call. *)
Theorem X4_Move_keeps_parities_alternating (from to : Tower) :
  alternating from -> alternating to ->
  alternating (fst (snd (Move from to))) /\
  alternating (snd (snd (Move from to))).
Proof.
  intros Hf Ht. rewrite Move_legal.
  destruct (legal from to) eqn:E; [|now split].
  destruct (legal_inv _ _ E) as (f & from' & ->). cbn. split.
  - eapply alternating_tl; eassumption.
  - eapply alternating_push; eassumption.
Qed.

(** An odd disk goes on an even one. *)
Lemma X4_witness :
  alternating [1; 2] /\ alternating [4; 5] /\
  alternating (fst (snd (Move [1; 2] [4; 5]))) /\
  alternating (snd (snd (Move [1; 2] [4; 5]))).
Proof.
  assert (H1 : alternating [1; 2])
    by (repeat constructor; cbn; discriminate).
  assert (H2 : alternating [4; 5])
    by (repeat constructor; cbn; discriminate).
  split; [exact H1|]. split; [exact H2|].
  apply (X4_Move_keeps_parities_alternating [1; 2] [4; 5] H1 H2).
Defined.

(** X5. On a source peg that is strictly increasing with alternating
    parities, a move that succeeded can be taken back: [Move] in the
    other direction succeeds too and restores both pegs.  (This is the
    move that the [previous] guard of the driver rules out.) *)
Theorem X5_Move_can_be_taken_back (from to : Tower) :
  increasing from -> alternating from ->
  fst (Move from to) = true ->
  Move (snd (snd (Move from to))) (fst (snd (Move from to))) =
  (true, (to, from)).
Proof.
  intros Hi Ha. fold (legal from to). intros E.
  rewrite (Move_legal from to), E.
  destruct (legal_inv _ _ E) as (f & from' & ->). cbn [fst snd tl hd].
  rewrite Move_legal. cbn [tl hd].
  replace (legal (f :: to) from') with true; [reflexivity|].
  symmetry. destruct from' as [|g from']; [reflexivity|].
  rewrite legal_cons.
  inversion Hi as [|? ? _ Hlt]; subst. inversion Hlt; subst.
  inversion Ha as [|? ? _ Hpar]; subst. inversion Hpar; subst.
  apply andb_true_intro. split; [lia|].
  now destruct (Z.odd f), (Z.odd g).
Qed.

(** Disk 1 goes from peg [1; 2; 3] onto disk 4 and back. *)
Lemma X5_witness :
  increasing [1; 2; 3] /\ alternating [1; 2; 3] /\
  fst (Move [1; 2; 3] [4]) = true /\
  Move (snd (snd (Move [1; 2; 3] [4]))) (fst (snd (Move [1; 2; 3] [4]))) =
  (true, ([4], [1; 2; 3])).
Proof.
  assert (H1 : increasing [1; 2; 3]) by (repeat constructor).
  assert (H2 : alternating [1; 2; 3])
    by (repeat constructor; cbn; discriminate).
  split; [exact H1|]. split; [exact H2|]. split; [reflexivity|].
  apply (X5_Move_can_be_taken_back [1; 2; 3] [4] H1 H2). reflexivity.
Defined.

(* ================================================================== *)
(** * Further properties: the inner loops [Odd] and [Even]             *)
(* ================================================================== *)

(** Whatever relates a state to itself, composes, and holds across each
    move of a candidate of the inner loop, holds across the loop. *)
Lemma sweep_relates (odd : bool) (R : State -> State -> Prop) :
  (forall s, R s s) ->
  (forall a b c, R a b -> R b c -> R a c) ->
  (forall c s, In c (sweep_candidates odd) ->
     legal (peg (tower s) (c_from c)) (peg (tower s) (c_to c)) = true ->
     R s (do_move c s)) ->
  forall st, R st (sweep odd st).
Proof.
  intros Hrefl Htrans Hstep st.
  remember (rank st) as m eqn:Hm. revert st Hm.
  induction m as [m IH] using lt_wf_ind. intros st ->.
  destruct (first_success (sweep_candidates odd) st) as [s1|] eqn:E.
  - assert (Hr : (rank s1 < rank st)%nat).
    { apply (first_success_rank (sweep_candidates odd)); [|exact E].
      intros x Hx. apply in_or_app. destruct odd; auto. }
    rewrite (sweep_moved _ _ _ E).
    apply Htrans with s1; [|exact (IH _ Hr s1 eq_refl)].
    apply first_success_inv in E as (c & Hin & E).
    apply attempt_Moved_inv in E as (_ & Hl & ->). now apply Hstep.
  - rewrite (sweep_break _ _ E). apply Hrefl.
Qed.

Lemma forward_only_refl (s : State) : forward_only s s.
Proof.
  repeat split; try now exists [].
  exists []. rewrite app_nil_r. split; [reflexivity|cbn; lia].
Qed.

Lemma forward_only_trans (a b c : State) :
  forward_only a b -> forward_only b c -> forward_only a c.
Proof.
  intros ((l0 & H0) & (l2 & H2) & (n1 & Hh & Hn))
         ((l0' & H0') & (l2' & H2') & (n1' & Hh' & Hn')).
  repeat split.
  - exists (l0 ++ l0'). now rewrite H0, H0', app_assoc.
  - exists (l2' ++ l2). now rewrite H2', H2, app_assoc.
  - exists (n1 ++ n1'). rewrite Hh', Hh, app_assoc. split; [reflexivity|].
    rewrite length_app. lia.
Qed.

Lemma forward_only_move (odd : bool) (c : Candidate) (s : State) :
  In c (sweep_candidates odd) ->
  legal (peg (tower s) (c_from c)) (peg (tower s) (c_to c)) = true ->
  forward_only s (do_move c s).
Proof.
  intros Hin Hl. destruct (legal_inv _ _ Hl) as (f & from' & Hf).
  revert Hf. clear Hl. destruct s as [[p0 p1 p2] pv mv hs].
  unfold forward_only, rank.
  destruct odd; cbn in Hin;
    repeat (destruct Hin as [<- | Hin]); try contradiction;
    cbn; intros ->; cbn;
    (split; [first [now exists [] | now exists [f]]|]);
    (split; [first [now exists [] | now exists [f]]|]);
    (eexists; split; [reflexivity|cbn; lia]).
Qed.

(** X6. [Odd] and [Even] return only through their [break]: in the state
    they return none of their three candidates can move, so a second call
    changes nothing. *)
Theorem X6_inner_loops_leave_nothing_to_move (st : State) :
  first_success Odd_candidates (Odd st) = None /\
  first_success Even_candidates (Even st) = None /\
  Odd (Odd st) = Odd st /\
  Even (Even st) = Even st.
Proof.
  destruct (sweep_run true st) as (_ & _ & Ho).
  destruct (sweep_run false st) as (_ & _ & He).
  cbn [sweep sweep_candidates] in Ho, He.
  repeat split; try assumption.
  - now apply Odd_break.
  - now apply Even_break.
Qed.

(** X7. A call of [Odd] or of [Even] only moves disks forward: it takes
    disks off the front of peg 0 and never puts one there, it puts disks
    on the front of peg 2 and never takes one from there, and it makes at
    most [2 * |peg 0| + |peg 1|] moves. *)
Theorem X7_inner_loops_only_move_forward (st : State) :
  forward_only st (Odd st) /\ forward_only st (Even st).
Proof.
  split.
  - apply (sweep_relates true forward_only);
      [apply forward_only_refl | apply forward_only_trans
      | apply (forward_only_move true)].
  - apply (sweep_relates false forward_only);
      [apply forward_only_refl | apply forward_only_trans
      | apply (forward_only_move false)].
Qed.

(* ================================================================== *)
(** * Further properties: [Hanoi] on any board                         *)
(* ================================================================== *)

Section AnyBoard.

Variable odd : bool.

Lemma Hanoi_body_run (st : State) :
  exists j, run odd j st = Some (Hanoi_body (sweep odd) st).
Proof.
  destruct (sweep_run odd st) as (j & Hj & Hstop). unfold Hanoi_body.
  destruct (first_success Hanoi_candidates (sweep odd st)) as [s2|] eqn:E.
  - exists (j + 1)%nat. rewrite run_add, Hj, run_S. unfold next.
    now rewrite first_success_app, Hstop, E.
  - now exists j.
Qed.

(** Whatever the outer loop returns is reached by successful moves. *)
Lemma Hanoi_loop_is_run (n fuel : nat) :
  forall st e,
    Hanoi_loop (sweep odd) n fuel st = Some e ->
    exists k, run odd k st = Some e /\ length (peg2 (tower e)) = n.
Proof.
  induction fuel as [|fuel IH]; intros st e H; [discriminate|].
  rewrite Hanoi_loop_S in H.
  destruct (Nat.eqb_spec (length (peg2 (tower st))) n) as [Hfull|_].
  - injection H as <-. now exists O.
  - destruct (IH _ _ H) as (k & Hk & Hn).
    destruct (Hanoi_body_run st) as (j & Hj).
    exists (j + k)%nat. now rewrite run_add, Hj.
Qed.

Lemma run_history_extends (k : nat) :
  forall st st', run odd k st = Some st' ->
                 exists new, history st' = history st ++ new.
Proof.
  induction k as [|k IH]; intros st st' H.
  - cbn in H. injection H as <-. exists []. now rewrite app_nil_r.
  - rewrite run_S in H.
    destruct (next odd st) as [s1|] eqn:E; [|discriminate].
    destruct (next_step _ _ _ E) as (c & _ & _ & _ & _ & ->).
    destruct (IH _ _ H) as (new & Hnew). cbn [history do_move] in Hnew.
    rewrite <- app_assoc in Hnew. eauto.
Qed.

(** If no candidate moves and peg 2 is not full, the loop goes round for
    ever. *)
Lemma Hanoi_loop_stuck (n : nat) (st : State) :
  next odd st = None -> length (peg2 (tower st)) <> n ->
  forall fuel, Hanoi_loop (sweep odd) n fuel st = None.
Proof.
  intros Hnext Hnot. unfold next in Hnext.
  rewrite first_success_app in Hnext.
  destruct (first_success (sweep_candidates odd) st) eqn:Ef; [discriminate|].
  assert (Hb : Hanoi_body (sweep odd) st = st).
  { unfold Hanoi_body. now rewrite (sweep_break _ _ Ef), Hnext. }
  induction fuel as [|fuel IH]; [reflexivity|].
  rewrite Hanoi_loop_S, Hb.
  destruct (Nat.eqb_spec (length (peg2 (tower st))) n); [contradiction|exact IH].
Qed.

End AnyBoard.

Lemma Hanoi_is_run (t : HanoiTower) (fuel : nat) (st : State) (out : string) :
  Hanoi t fuel = Some (st, out) ->
  exists k,
    run (Nat.odd (length (peg0 t))) k (init_state t) = Some st /\
    length (peg2 (tower st)) = length (peg0 t) /\
    out = report (length (peg0 t)) st.
Proof.
  unfold Hanoi, Hanoi_with.
  destruct (Nat.odd (length (peg0 t)));
    [change Odd with (sweep true) | change Even with (sweep false)];
    destruct (Hanoi_loop _ _ fuel _) as [e|] eqn:E; try discriminate;
    intros [= <- <-];
    destruct (Hanoi_loop_is_run _ _ _ _ _ E) as (k & Hk & Hn); eauto.
Qed.

Lemma do_move_permutation (c : Candidate) (st : State) :
  In c all_candidates ->
  legal (peg (tower st) (c_from c)) (peg (tower st) (c_to c)) = true ->
  Permutation (all_disks (tower (do_move c st))) (all_disks (tower st)).
Proof.
  intros Hin Hl.
  destruct (legal_inv _ _ Hl) as (f & from' & Hf).
  revert Hf. clear Hl. destruct st as [[p0 p1 p2] pv mv hs]. unfold all_disks.
  each_candidate Hin; cbn; intros ->; cbn.
  - rewrite !app_assoc. symmetry. apply (Permutation_middle (from' ++ p1) p2 f).
  - symmetry. apply (Permutation_middle from' (p1 ++ p2) f).
  - apply Permutation_app_head. symmetry. apply Permutation_middle.
  - symmetry. apply (Permutation_middle from' (p1 ++ p2) f).
  - rewrite !app_assoc. symmetry. apply (Permutation_middle (from' ++ p1) p2 f).
  - apply Permutation_app_head. symmetry. apply Permutation_middle.
  - rewrite !app_assoc. apply (Permutation_middle (p0 ++ p1) from' f).
  - apply Permutation_app_head. apply Permutation_middle.
  - apply (Permutation_middle p0 (from' ++ p2) f).
Qed.

Lemma do_move_parity_stacked (c : Candidate) (st : State) :
  In c all_candidates ->
  legal (peg (tower st) (c_from c)) (peg (tower st) (c_to c)) = true ->
  parity_stacked (tower st) -> parity_stacked (tower (do_move c st)).
Proof.
  intros Hin Hl. destruct (legal_inv _ _ Hl) as (f & from' & Hf).
  revert Hl Hf. destruct st as [[p0 p1 p2] pv mv hs]. unfold parity_stacked.
  each_candidate Hin; cbn; intros Hl ->; cbn; intros (H0 & H1 & H2);
    repeat split;
    solve [ assumption
          | eapply alternating_tl; eassumption
          | eapply alternating_push; eassumption ].
Qed.

(** X8. On any board, if [Hanoi] returns then peg 2 holds as many disks
    as peg 0 held at the start, the board holds the same disks as at the
    start after every move, the counter is the number of moves made
    (reduced to an [int]), and the line printed gives the initial size of
    peg 0 and that counter. *)
Theorem X8_Hanoi_conserves_any_board
    (t : HanoiTower) (fuel : nat) (st : State) (out : string) :
  Hanoi t fuel = Some (st, out) ->
  length (peg2 (tower st)) = length (peg0 t) /\
  Permutation (all_disks (tower st)) (all_disks t) /\
  Forall (fun s => Permutation (all_disks (step_tower s)) (all_disks t))
         (history st) /\
  moves st = Int.wrap (Z.of_nat (length (history st))) /\
  out = report (length (peg0 t)) st.
Proof.
  intros H. destruct (Hanoi_is_run _ _ _ _ H) as (k & Hk & Hn & Hout).
  split; [exact Hn|].
  destruct (run_history (Nat.odd (length (peg0 t)))
              (fun tw => Permutation (all_disks tw) (all_disks t))
              (fun s => Permutation (all_disks (step_tower s)) (all_disks t)))
    with (2 := Hk) as [HP HQ].
  - intros c s Hin Hl Hs. cbn [step_tower].
    split; (eapply Permutation_trans; [|exact Hs]);
      now apply do_move_permutation.
  - reflexivity.
  - constructor.
  - repeat split; try assumption.
    rewrite (run_moves _ _ _ _ Hk) by reflexivity.
    rewrite (run_history_length _ _ _ _ Hk). reflexivity.
Qed.

(** The board with disks 1 and 4 is solved in three moves. *)
Lemma X8_witness :
  exists st out,
    Hanoi odd_board 4 = Some (st, out) /\
    length (peg2 (tower st)) = length (peg0 odd_board) /\
    Permutation (all_disks (tower st)) (all_disks odd_board) /\
    Forall (fun s => Permutation (all_disks (step_tower s)) (all_disks odd_board))
           (history st) /\
    moves st = Int.wrap (Z.of_nat (length (history st))) /\
    out = report (length (peg0 odd_board)) st.
Proof.
  destruct (Hanoi odd_board 4) as [[st out]|] eqn:E;
    [|vm_compute in E; discriminate].
  exists st, out. split; [reflexivity|].
  apply (X8_Hanoi_conserves_any_board odd_board 4 st out E).
Defined.

(** X9. On any board whose pegs are strictly increasing, every move of
    [Hanoi] leaves them strictly increasing; and on any board whose pegs
    alternate in parity, every move leaves them alternating. *)
Theorem X9_Hanoi_keeps_order_and_parity
    (t : HanoiTower) (fuel : nat) (st : State) (out : string) :
  Hanoi t fuel = Some (st, out) ->
  (well_stacked t ->
   well_stacked (tower st) /\
   Forall (fun s => well_stacked (step_tower s)) (history st)) /\
  (parity_stacked t ->
   parity_stacked (tower st) /\
   Forall (fun s => parity_stacked (step_tower s)) (history st)).
Proof.
  intros H. destruct (Hanoi_is_run _ _ _ _ H) as (k & Hk & _ & _).
  split; intros Ht.
  - apply (run_history (Nat.odd (length (peg0 t))) well_stacked
             (fun s => well_stacked (step_tower s))) with (2 := Hk).
    + intros c s Hin Hl Hs. cbn [step_tower].
      split; now apply do_move_well_stacked.
    + exact Ht.
    + constructor.
  - apply (run_history (Nat.odd (length (peg0 t))) parity_stacked
             (fun s => parity_stacked (step_tower s))) with (2 := Hk).
    + intros c s Hin Hl Hs. cbn [step_tower].
      split; now apply do_move_parity_stacked.
    + exact Ht.
    + constructor.
Qed.

Lemma X9_witness :
  exists st out,
    Hanoi odd_board 4 = Some (st, out) /\
    (well_stacked odd_board ->
     well_stacked (tower st) /\
     Forall (fun s => well_stacked (step_tower s)) (history st)) /\
    (parity_stacked odd_board ->
     parity_stacked (tower st) /\
     Forall (fun s => parity_stacked (step_tower s)) (history st)).
Proof.
  destruct (Hanoi odd_board 4) as [[st out]|] eqn:E;
    [|vm_compute in E; discriminate].
  exists st, out. split; [reflexivity|].
  apply (X9_Hanoi_keeps_order_and_parity odd_board 4 st out E).
Defined.

(** X10. The outer loop has no way out of a state in which no candidate
    can move while peg 2 does not hold [disks_count] disks: it never
    returns.  In particular [Hanoi] never returns on a board with pegs 0
    and 1 empty and peg 2 not empty. *)
Theorem X10_Hanoi_never_returns_when_stuck :
  (forall odd n st,
     next odd st = None -> length (peg2 (tower st)) <> n ->
     forall fuel, Hanoi_loop (sweep odd) n fuel st = None) /\
  (forall x rest fuel, Hanoi (mkHanoiTower [] [] (x :: rest)) fuel = None).
Proof.
  split; [exact Hanoi_loop_stuck|].
  intros x rest fuel. unfold Hanoi, Hanoi_with. cbn [peg0 length Nat.odd].
  change Even with (sweep false).
  rewrite Hanoi_loop_stuck; [reflexivity| |cbn; discriminate].
  reflexivity.
Qed.

Lemma hanoi_moves_pos (n : nat) :
  (1 <= n)%nat -> exists k, hanoi_moves n = S k.
Proof.
  intros H. destruct n as [|n]; [lia|].
  rewrite hanoi_moves_S, Nat.add_succ_r. eauto.
Qed.

(** X11. For every [N >= 1] the first move of the solver takes the
    smallest disk from peg 0 to peg 2 when [N] is odd and to peg 1 when
    [N] is even. *)
Theorem X11_first_move (N : nat) :
  (1 <= N)%nat ->
  forall fuel st out,
    Hanoi (start_tower (Z.of_nat N)) fuel = Some (st, out) ->
    exists rest later,
      history st =
        mkStep 0 (if Nat.odd N then 2 else 1)
               (if Nat.odd N then mkHanoiTower rest [] [1]
                else mkHanoiTower rest [1] [])
               (if Nat.odd N then 2 else 1) :: later /\
      InitTower (Z.of_nat N) = 1 :: rest.
Proof.
  intros Hn fuel st out H.
  destruct (Hanoi_result _ _ _ _ Hn H) as (Hr & _).
  destruct (hanoi_moves_pos N Hn) as (k & Hk). rewrite Hk, run_S in Hr.
  destruct N as [|n]; [lia|].
  rewrite start_tower_up in Hr.
  change (up (S n)) with (1 :: InitTower_from (1 + 1) n) in Hr.
  unfold InitTower. rewrite Nat2Z.id.
  change (InitTower_from 1 (S n)) with (1 :: InitTower_from (1 + 1) n).
  exists (InitTower_from (1 + 1) n).
  destruct (Nat.odd (S n));
    match type of Hr with
    | match ?x with _ => _ end = _ =>
        let y := eval cbn in x in change x with y in Hr
    end;
    destruct (run_history_extends _ _ _ _ Hr) as (later & Hl);
    exists later; rewrite Hl; split; reflexivity.
Qed.

(** The same for four disks. *)
Lemma X11_witness :
  (1 <= 4)%nat /\
  forall fuel st out,
    Hanoi (start_tower (Z.of_nat 4)) fuel = Some (st, out) ->
    exists rest later,
      history st =
        mkStep 0 (if Nat.odd 4 then 2 else 1)
               (if Nat.odd 4 then mkHanoiTower rest [] [1]
                else mkHanoiTower rest [1] [])
               (if Nat.odd 4 then 2 else 1) :: later /\
      InitTower (Z.of_nat 4) = 1 :: rest.
Proof.
  split; [lia|]. apply (X11_first_move 4). lia.
Defined.

Lemma history_inv_next (odd : bool) (st st' : State) :
  history_inv st -> next odd st = Some st' -> history_inv st'.
Proof.
  intros (Hu & H2 & Hhd & Hlast) Hnext.
  destruct (next_step _ _ _ Hnext) as (c & _ & Hg & _ & Hp & ->).
  unfold history_inv, do_move. cbn [history previous tower].
  match goal with |- context [history st ++ [?x]] => set (e := x) end.
  repeat split.
  - intros h1 a b h2 E.
    destruct h2 as [|y h2].
    + change (h1 ++ [a; b]) with (h1 ++ [a] ++ [b]) in E.
      rewrite app_assoc in E. apply app_inj_tail in E as [E <-].
      destruct (Hlast _ _ E) as [Hto _]. cbn. congruence.
    + destruct (@exists_last _ (y :: h2)) as (h2' & x & Ex); [discriminate|].
      rewrite Ex in E.
      change (h1 ++ a :: b :: h2' ++ [x])
        with (h1 ++ (a :: b :: h2') ++ [x]) in E.
      rewrite app_assoc in E. apply app_inj_tail in E as [E _].
      eapply Hu; eassumption.
  - intros E. now apply app_eq_nil in E as [_ E].
  - intros a. destruct (history st) as [|a0 hs] eqn:Eh.
    + cbn. intros [= <-]. cbn. rewrite <- (H2 eq_refl). auto.
    + cbn. intros [= <-]. now apply Hhd.
  - apply app_inj_tail in H as [_ <-]. cbn. congruence.
  - apply app_inj_tail in H as [_ <-]. reflexivity.
Qed.

Lemma history_inv_run (odd : bool) (k : nat) :
  forall st st', history_inv st -> run odd k st = Some st' -> history_inv st'.
Proof.
  induction k as [|k IH]; intros st st' Hi H.
  - cbn in H. now injection H as <-.
  - rewrite run_S in H.
    destruct (next odd st) as [s1|] eqn:E; [|discriminate].
    eapply IH; [|exact H]. eapply history_inv_next; eassumption.
Qed.

(** X12. On any board, no move of [Hanoi] takes a disk from the peg that
    the move before it put a disk on, the first move never takes a disk
    from peg 2, and the last entry of the history is the state that is
    returned. *)
Theorem X12_Hanoi_never_undoes
    (t : HanoiTower) (fuel : nat) (st : State) (out : string) :
  Hanoi t fuel = Some (st, out) ->
  never_undoes (history st) /\
  (forall a, hd_error (history st) = Some a -> step_from a <> 2) /\
  (forall h a, history st = h ++ [a] ->
               step_to a = previous st /\ step_tower a = tower st).
Proof.
  intros H. destruct (Hanoi_is_run _ _ _ _ H) as (k & Hk & _ & _).
  assert (Hi : history_inv (init_state t)).
  { repeat split; cbn.
    - intros h1 a b h2 E. now destruct h1.
    - discriminate.
    - now destruct h.
    - now destruct h. }
  destruct (history_inv_run _ _ _ _ Hi Hk) as (Hu & _ & Hhd & Hlast). auto.
Qed.

Lemma X12_witness :
  exists st out,
    Hanoi odd_board 4 = Some (st, out) /\
    never_undoes (history st) /\
    (forall a, hd_error (history st) = Some a -> step_from a <> 2) /\
    (forall h a, history st = h ++ [a] ->
                 step_to a = previous st /\ step_tower a = tower st).
Proof.
  destruct (Hanoi odd_board 4) as [[st out]|] eqn:E;
    [|vm_compute in E; discriminate].
  exists st, out. split; [reflexivity|].
  apply (X12_Hanoi_never_undoes odd_board 4 st out E).
Defined.

(* ================================================================== *)
(** * Further properties: [DisksCount] and [main]                      *)
(* ================================================================== *)

Lemma notice_large_not_too_few (x : Z) : notice_large <> notice_too_few x.
Proof.
  unfold notice_large, notice_too_few, nl. cbn. discriminate.
Qed.

Lemma notice_large_not_default (x : Z) : notice_large <> notice_default x.
Proof.
  unfold notice_large, notice_default, nl. cbn. discriminate.
Qed.

(** X13. Where [DisksCount] is defined and returns, that is without an
    argument or with one that [std::stoi] parses to an [int] other than
    [INT_MIN], the count is between 1 and [INT_MAX]; at most one notice is
    printed, and the notice about long runs exactly when the count
    returned is above 25; and only [argc] and [argv[1]] count: further
    arguments change nothing. *)
Theorem X13_DisksCount_count_and_notices
    (argv : list string) (n : Z) (out : list string) :
  DisksCount argv = Returns (n, out) ->
  ((2 <= length argv)%nat ->
   stoi (nth 1 argv EmptyString) <> Some Int.min_int) /\
  1 <= n <= Int.max_int /\
  (length out <= 1)%nat /\
  (In notice_large out <-> 25 < n) /\
  DisksCount (firstn 2 argv) = Returns (n, out).
Proof.
  intros H.
  assert (Hfirst : DisksCount (firstn 2 argv) = DisksCount argv).
  { unfold DisksCount. destruct argv as [|a [|b rest]]; try reflexivity.
    cbn [firstn nth].
    replace (Z.of_nat (length (a :: b :: rest)) <? 2) with false
      by (symmetry; apply Z.ltb_ge; cbn [length]; lia).
    reflexivity. }
  rewrite Hfirst.
  destruct (DisksCount_returns _ _ _ H)
    as [(Hl & -> & ->) | (v & Hl & Hs & Hr & E)].
  - repeat split; try assumption; try (unfold Int.max_int; cbn; lia).
    intros [E|[]]. symmetry in E. now apply notice_large_not_default in E.
  - split; [intros _; rewrite Hs; intros [= ->]; lia|].
    destruct (Z.ltb_spec (Z.abs v) 1); [|destruct (Z.gtb_spec (Z.abs v) 25)];
      injection E as -> ->; repeat split; try assumption;
      try (unfold Int.min_int, Int.max_int in *; cbn [length In]; lia);
      cbn [In]; try tauto.
    intros [E|[]]. symmetry in E. now apply notice_large_not_too_few in E.
Qed.

(** The argument 26, with a further argument that is ignored. *)
Lemma X13_witness :
  DisksCount ["HanoiTowers"; "26"; "x"]%string = Returns (26, [notice_large]) /\
  ((2 <= length ["HanoiTowers"; "26"; "x"]%string)%nat ->
   stoi (nth 1 ["HanoiTowers"; "26"; "x"]%string EmptyString)
     <> Some Int.min_int) /\
  1 <= 26 <= Int.max_int /\
  (length [notice_large] <= 1)%nat /\
  (In notice_large [notice_large] <-> 25 < 26) /\
  DisksCount (firstn 2 ["HanoiTowers"; "26"; "x"]%string) =
    Returns (26, [notice_large]).
Proof.
  split; [reflexivity|].
  apply (X13_DisksCount_count_and_notices
           ["HanoiTowers"; "26"; "x"]%string 26 [notice_large]).
  reflexivity.
Defined.

(** X14. End to end: whenever [DisksCount] is defined and returns a count
    [n] of at most 31 (so [argv[1]], if given, is not parsed to
    [INT_MIN]), [main] runs the solver on the tower of [InitTower(n)],
    which ends with the whole tower on peg 2 after [2 ^ n - 1] moves, and
    the line printed is [<n> disks done in <2 ^ n - 1> moves]. *)
Theorem X14_main_end_to_end
    (argv : list string) (n : Z) (out : list string) (fuel : nat) :
  DisksCount argv = Returns (n, out) ->
  n <= 31 ->
  (2 ^ Z.to_nat n <= fuel)%nat ->
  exists st,
    main argv fuel =
      Returns
        (n, out,
         Some (st, String.append (show_Z n)
                     (String.append " disks done in "%string
                        (String.append (show_Z (2 ^ n - 1)) " moves"%string)))) /\
    1 <= n /\
    tower st = mkHanoiTower [] [] (InitTower n) /\
    moves st = 2 ^ n - 1 /\
    length (history st) = (2 ^ Z.to_nat n - 1)%nat.
Proof.
  intros Hd H31 Hf.
  assert (H1 : 1 <= n).
  { destruct (DisksCount_returns _ _ _ Hd)
      as [(_ & -> & _) | (v & _ & _ & _ & E)]; [lia|].
    destruct (Z.ltb_spec (Z.abs v) 1); injection E as -> _; lia. }
  set (N := Z.to_nat n) in *.
  assert (HN : Z.of_nat N = n) by (unfold N; lia).
  assert (H1N : (1 <= N)%nat) by lia.
  destruct (Hanoi_returns N fuel H1N Hf) as (e & _ & Ht & _ & He).
  destruct (Hanoi_moves _ _ _ _ H1N He) as [Hm Hl].
  assert (Hme : moves e = 2 ^ n - 1).
  { rewrite Hm, HN. apply wrap_small.
    unfold Int.min_int, Int.max_int.
    assert (0 < 2 ^ n) by (apply Z.pow_pos_nonneg; lia).
    assert (2 ^ n <= 2 ^ 31) by (apply Z.pow_le_mono_r; lia).
    lia. }
  exists e. unfold main. rewrite Hd.
  replace (Hanoi (start_tower n) fuel)
    with (Hanoi (start_tower (Z.of_nat N)) fuel) by now rewrite HN.
  rewrite He.
  unfold report. rewrite Hme, HN. repeat split.
  - exact H1.
  - rewrite Ht. unfold InitTower, up. now fold N.
  - exact Hl.
Qed.

(** Four disks on the command line. *)
Lemma X14_witness :
  DisksCount ["HanoiTowers"; "4"]%string = Returns (4, []) /\
  4 <= 31 /\
  (2 ^ Z.to_nat 4 <= 16)%nat /\
  exists st,
    main ["HanoiTowers"; "4"]%string 16 =
      Returns
        (4, [],
         Some (st, String.append (show_Z 4)
                     (String.append " disks done in "%string
                        (String.append (show_Z (2 ^ 4 - 1)) " moves"%string)))) /\
    1 <= 4 /\
    tower st = mkHanoiTower [] [] (InitTower 4) /\
    moves st = 2 ^ 4 - 1 /\
    length (history st) = (2 ^ Z.to_nat 4 - 1)%nat.
Proof.
  assert (H1 : DisksCount ["HanoiTowers"; "4"]%string = Returns (4, []))
    by reflexivity.
  assert (H2 : 4 <= 31) by lia.
  assert (H3 : (2 ^ Z.to_nat 4 <= 16)%nat) by (vm_compute; lia).
  split; [exact H1|]. split; [exact H2|]. split; [exact H3|].
  apply (X14_main_end_to_end ["HanoiTowers"; "4"]%string 4 [] 16 H1 H2 H3).
Defined.
